(** * The in-memory vector store and its semantic cache

    A shallow embedding of [langchain/src/vectorstores/memory.ts]:
    [MemoryVectorStore] (linear-scan similarity search with top-k selection)
    and [MemorySemanticVectorStore] (one store per hashed namespace key with
    [lookup], [update] and [clear]).

    JavaScript numbers are IEEE 754 binary64 values; they are modelled by the
    standard library's [spec_float] at precision 53, so that [NaN], signed
    zeros and rounding behave as they do in the running program. *)

From Stdlib Require Import ZArith Lia SpecFloat Ascii.
From stdpp Require Import base option list sorting strings gmap.

#[local] Set Warnings "-register-all".

(* ===================================================================== *)
(** ** JavaScript numbers *)
(* ===================================================================== *)

Module Number.

Definition number : Type := spec_float.

Definition prec : Z := 53.
Definition emax : Z := 1024.

Definition NaN : number := S754_nan.
Definition of_Z (z : Z) : number := binary_normalize prec emax z 0 false.

Definition add : number → number → number := SFadd prec emax.
Definition mul : number → number → number := SFmul prec emax.
Definition div : number → number → number := SFdiv prec emax.
Definition sqrt : number → number := SFsqrt prec emax.

(** The relational operators [<], [>], [>=] and [==] on numbers. Each is
    [false] as soon as one operand is [NaN]. *)
Definition lt (x y : number) : bool := SFltb x y.
Definition gt (x y : number) : bool := SFltb y x.
Definition ge (x y : number) : bool := SFleb y x.
Definition eq (x y : number) : bool := SFeqb x y.

Definition isNaN (x : number) : bool :=
  match x with S754_nan => true | _ => false end.

(** The decimal literal [n / d], correctly rounded: [ratio 9 10] is the
    double written [0.9]. *)
Definition ratio (n d : Z) : number := div (of_Z n) (of_Z d).

End Number.

Abbreviation number := Number.number.

(** *** Order facts on numbers that are not [NaN] *)

Section NumberOrder.

(** [SFcompare] ranks the values that are not [NaN] along a line; [rank]
    sends a number to a point of that line: a sign class, then exponent and
    mantissa compared lexicographically. *)
Definition rank (x : number) : Z * (Z * Z) :=
  match x with
  | S754_nan => (0, (0, 0))
  | S754_zero _ => (0, (0, 0))
  | S754_infinity true => (-2, (0, 0))
  | S754_infinity false => (2, (0, 0))
  | S754_finite true m e => (-1, (- e, - Z.pos m))
  | S754_finite false m e => (1, (e, Z.pos m))
  end%Z.

Definition rank_lt (a b : Z * (Z * Z)) : Prop :=
  (a.1 < b.1 ∨ (a.1 = b.1 ∧ (a.2.1 < b.2.1 ∨ (a.2.1 = b.2.1 ∧ a.2.2 < b.2.2))))%Z.

Lemma ltb_rank x y :
  Number.isNaN x = false → Number.isNaN y = false →
  SFltb x y = true ↔ rank_lt (rank x) (rank y).
Proof.
  intros Hx Hy. unfold SFltb, rank_lt.
  destruct x as [sx|sx| |sx mx ex], y as [sy|sy| |sy my ey];
    try discriminate; simpl;
    repeat match goal with s : bool |- _ => destruct s end; simpl;
    try (split; [discriminate | lia]);
    try (split; [lia | discriminate]);
    try (split; [reflexivity | lia]);
    try (split; [lia | reflexivity]).
  - change (Pos.compare_cont Eq mx my) with (Pos.compare mx my).
    destruct (Z.compare_spec ex ey); simpl;
      [destruct (Pos.compare_spec mx my); simpl | |];
      split; intros; try discriminate; try reflexivity; lia.
  - change (Pos.compare_cont Eq mx my) with (Pos.compare mx my).
    destruct (Z.compare_spec ex ey); simpl;
      [destruct (Pos.compare_spec mx my); simpl | |];
      split; intros; try discriminate; try reflexivity; lia.
Qed.

Lemma leb_rank x y :
  Number.isNaN x = false → Number.isNaN y = false →
  SFleb x y = true ↔ ¬ rank_lt (rank y) (rank x).
Proof.
  intros Hx Hy. unfold SFleb, rank_lt.
  destruct x as [sx|sx| |sx mx ex], y as [sy|sy| |sy my ey];
    try discriminate; simpl;
    repeat match goal with s : bool |- _ => destruct s end; simpl;
    try (split; [discriminate | lia]);
    try (split; [lia | discriminate]);
    try (split; [reflexivity | lia]);
    try (split; [lia | reflexivity]).
  - change (Pos.compare_cont Eq mx my) with (Pos.compare mx my).
    destruct (Z.compare_spec ex ey); simpl;
      [destruct (Pos.compare_spec mx my); simpl | |];
      split; intros; try discriminate; try reflexivity; lia.
  - change (Pos.compare_cont Eq mx my) with (Pos.compare mx my).
    destruct (Z.compare_spec ex ey); simpl;
      [destruct (Pos.compare_spec mx my); simpl | |];
      split; intros; try discriminate; try reflexivity; lia.
Qed.

Lemma ltb_not_NaN x y :
  SFltb x y = true → Number.isNaN x = false ∧ Number.isNaN y = false.
Proof. destruct x, y; simpl; auto; discriminate. Qed.

Lemma leb_not_NaN x y :
  SFleb x y = true → Number.isNaN x = false ∧ Number.isNaN y = false.
Proof. destruct x, y; simpl; auto; discriminate. Qed.

Lemma gt_irrefl x : Number.gt x x = false.
Proof.
  unfold Number.gt. destruct (Number.isNaN x) eqn:Hx.
  - destruct x; try discriminate; reflexivity.
  - destruct (SFltb x x) eqn:E; [|done].
    apply ltb_rank in E; [|done..]. unfold rank_lt in E. lia.
Qed.

Lemma gt_asym x y : Number.gt x y = true → Number.gt y x = false.
Proof.
  unfold Number.gt. intros H. destruct (ltb_not_NaN _ _ H) as [Hy Hx].
  destruct (SFltb x y) eqn:E; [|done].
  apply ltb_rank in H, E; [|done..]. unfold rank_lt in *. lia.
Qed.

Lemma gt_trans x y z :
  Number.gt x y = true → Number.gt y z = true → Number.gt x z = true.
Proof.
  unfold Number.gt. intros H1 H2.
  destruct (ltb_not_NaN _ _ H1) as [Hy Hx].
  destruct (ltb_not_NaN _ _ H2) as [Hz _].
  apply ltb_rank in H1, H2; [|done..]. apply ltb_rank; [done..|].
  unfold rank_lt in *. lia.
Qed.

Lemma gt_negtrans x y z :
  Number.isNaN x = false → Number.isNaN y = false → Number.isNaN z = false →
  Number.gt x y = false → Number.gt y z = false → Number.gt x z = false.
Proof.
  unfold Number.gt. intros Hx Hy Hz H1 H2.
  destruct (SFltb z x) eqn:E; [|done].
  apply ltb_rank in E; [|done..].
  assert (¬ rank_lt (rank y) (rank x)) as N1
    by (intros C; apply ltb_rank in C; [congruence|done..]).
  assert (¬ rank_lt (rank z) (rank y)) as N2
    by (intros C; apply ltb_rank in C; [congruence|done..]).
  unfold rank_lt in *. lia.
Qed.

Lemma not_gt_ge x y :
  Number.isNaN x = false → Number.isNaN y = false →
  Number.gt y x = false → Number.ge x y = true.
Proof.
  unfold Number.gt, Number.ge. intros Hx Hy H.
  apply leb_rank; [done..|]. intros C.
  apply ltb_rank in C; [congruence|done..].
Qed.

Lemma gt_ge x y : Number.gt x y = true → Number.ge x y = true.
Proof.
  intros H. destruct (ltb_not_NaN _ _ H) as [Hy Hx].
  apply not_gt_ge; [done..|]. by apply gt_asym.
Qed.

Lemma ge_not_lt x y : Number.ge x y = true → Number.lt x y = false.
Proof.
  unfold Number.ge, Number.lt. intros H.
  destruct (leb_not_NaN _ _ H) as [Hy Hx].
  destruct (SFltb x y) eqn:E; [|done].
  apply leb_rank in H; [|done..]. apply ltb_rank in E; [|done..]. done.
Qed.

Lemma eq_not_gt x y : Number.eq x y = true → Number.gt x y = false.
Proof.
  unfold Number.eq, Number.gt, SFeqb, SFltb.
  destruct (SFcompare x y) as [[]|] eqn:E; try discriminate. intros _.
  destruct x as [sx|sx| |sx mx ex], y as [sy|sy| |sy my ey];
    try discriminate; simpl in *;
    repeat match goal with s : bool |- _ => destruct s end;
    simpl in *; try discriminate; try reflexivity.
  - change (Pos.compare_cont Eq mx my) with (Pos.compare mx my) in E.
    change (Pos.compare_cont Eq my mx) with (Pos.compare my mx).
    destruct (Z.compare_spec ex ey); try discriminate. subst.
    rewrite Z.compare_refl.
    destruct (Pos.compare_spec mx my); try discriminate. subst.
    by rewrite Pos.compare_refl.
  - change (Pos.compare_cont Eq mx my) with (Pos.compare mx my) in E.
    change (Pos.compare_cont Eq my mx) with (Pos.compare my mx).
    destruct (Z.compare_spec ex ey); try discriminate. subst.
    rewrite Z.compare_refl.
    destruct (Pos.compare_spec mx my); try discriminate. subst.
    by rewrite Pos.compare_refl.
Qed.

End NumberOrder.


(* ===================================================================== *)
(** ** JavaScript values, exceptions and the host environment *)
(* ===================================================================== *)

(** The values that metadata ([Record<string, any>]) and [JSON.parse] can
    hold. An object is the list of its own properties, each key once. A
    number inside such a value is held as the text [Number::toString] gives
    for it: the program never computes with these numbers. *)
Inductive JSValue : Type :=
| JUndefined
| JNull
| JBool (b : bool)
| JNumber (text : string)
| JString (s : string)
| JArray (elements : list JSValue)
| JObject (properties : list (string * JSValue)).

(** Exceptions. The text of the engine's own [TypeError] and [SyntaxError]
    messages is not modelled; an [Error] carries the message the program
    gave it. *)
Inductive JSError : Type :=
| TypeError
| SyntaxError
| Error (message : string).

(** A computation that returns a value or throws. *)
Inductive result (A : Type) : Type :=
| Ok (value : A)
| Throw (e : JSError).

Arguments Ok {A} value.
Arguments Throw {A} e.

#[global] Instance result_ret : MRet result := λ A a, Ok a.
#[global] Instance result_bind : MBind result := λ A B k r,
  match r with Ok a => k a | Throw e => Throw e end.

(** [try { body } catch (error) { handler }] *)
Definition try_catch {A} (body : result A) (handler : JSError → result A) : result A :=
  match body with Ok a => Ok a | Throw e => handler e end.

(** The [JSON] object of the JavaScript host. [JSON_parse] is [None] where
    [JSON.parse] throws a [SyntaxError]. *)
Class JSONObject : Type := {
  JSON_parse : string → option JSValue;
  JSON_stringify : JSValue → string
}.

(** Modelled from the spec: the embedding provider (the [Embeddings]
    interface of [embeddings/base.js], not among the sources), an external
    collaborator with the two methods [embedDocuments] and [embedQuery]. Its
    calls are asynchronous and may fail in the program, the failure going to
    the caller; here a provider is a pair of functions that answer. *)
Class Embeddings : Type := {
  embedDocuments : list string → list (list number);
  embedQuery : string → list number
}.

(** The abstract operation [ToString] on the values above; array elements
    that are [undefined] or [null] print as the empty string. *)
Fixpoint ToString (v : JSValue) : string :=
  match v with
  | JUndefined => "undefined"
  | JNull => "null"
  | JBool true => "true"
  | JBool false => "false"
  | JNumber text => text
  | JString s => s
  | JArray elements =>
      (fix join (l : list JSValue) : string :=
         match l with
         | [] => ""
         | x :: l' =>
             let sx := match x with
                       | JUndefined | JNull => ""
                       | _ => ToString x
                       end in
             match l' with [] => sx | _ :: _ => sx +:+ "," +:+ join l' end
         end) elements
  | JObject _ => "[object Object]"
  end.

(** [o[key]] on the own properties of an object. *)
Fixpoint getOwnProperty (key : string) (properties : list (string * JSValue)) : option JSValue :=
  match properties with
  | [] => None
  | (k, v) :: rest => if String.eqb k key then Some v else getOwnProperty key rest
  end.

(** Property read [v.key]: throws on [undefined] and [null], finds nothing
    on primitives and arrays (no such property on their prototypes for the
    keys used here), reads the own property of an object. A missing property
    reads as [undefined]. *)
Definition getProperty (v : JSValue) (key : string) : result JSValue :=
  match v with
  | JUndefined | JNull => Throw TypeError
  | JObject properties => Ok (default JUndefined (getOwnProperty key properties))
  | _ => Ok JUndefined
  end.

(* ===================================================================== *)
(** ** crypto: the MD5 digest *)
(* ===================================================================== *)

(** MD5 (RFC 1321) over the bytes of a string, printed in hexadecimal, as
    [crypto.createHash(md5).update(input, utf8).digest(hex)] computes it.
    Words are 32-bit values held in [Z]; a string is its UTF-8 bytes. *)
Module MD5.

Definition wrap (x : Z) : Z := x `mod` 4294967296.

Definition rotateLeft (x : Z) (c : Z) : Z :=
  wrap (Z.lor (Z.shiftl x c) (Z.shiftr x (32 - c))).

Definition not32 (x : Z) : Z := Z.lxor x 4294967295.

Definition shifts : list Z :=
  [7; 12; 17; 22; 7; 12; 17; 22; 7; 12; 17; 22; 7; 12; 17; 22;
   5; 9; 14; 20; 5; 9; 14; 20; 5; 9; 14; 20; 5; 9; 14; 20;
   4; 11; 16; 23; 4; 11; 16; 23; 4; 11; 16; 23; 4; 11; 16; 23;
   6; 10; 15; 21; 6; 10; 15; 21; 6; 10; 15; 21; 6; 10; 15; 21]%Z.

(** [floor(2^32 * abs(sin(i + 1)))] for [i] from 0 to 63. *)
Definition sines : list Z :=
  [3614090360; 3905402710; 606105819; 3250441966;
   4118548399; 1200080426; 2821735955; 4249261313;
   1770035416; 2336552879; 4294925233; 2304563134;
   1804603682; 4254626195; 2792965006; 1236535329;
   4129170786; 3225465664; 643717713; 3921069994;
   3593408605; 38016083; 3634488961; 3889429448;
   568446438; 3275163606; 4107603335; 1163531501;
   2850285829; 4243563512; 1735328473; 2368359562;
   4294588738; 2272392833; 1839030562; 4259657740;
   2763975236; 1272893353; 4139469664; 3200236656;
   681279174; 3936430074; 3572445317; 76029189;
   3654602809; 3873151461; 530742520; 3299628645;
   4096336452; 1126891415; 2878612391; 4237533241;
   1700485571; 2399980690; 4293915773; 2240044497;
   1873313359; 4264355552; 2734768916; 1309151649;
   4149444226; 3174756917; 718787259; 3951481745]%Z.

Definition bytesOf (s : string) : list Z :=
  (λ c, Z.of_nat (Ascii.nat_of_ascii c)) <$> String.list_ascii_of_string s.

Definition littleEndian (width : nat) (x : Z) : list Z :=
  (λ i, Z.shiftr x (8 * Z.of_nat i) `mod` 256)%Z <$> seq 0 width.

(** The message, then the byte 0x80, zeros up to 56 modulo 64, and the bit
    length as a 64-bit little-endian integer. *)
Definition pad (message : list Z) : list Z :=
  let n := length message in
  let zeros := (55 + 64 - n `mod` 64) `mod` 64 in
  message ++ [128%Z] ++ replicate zeros 0%Z ++ littleEndian 8 (8 * Z.of_nat n).

Definition wordOf (bytes : list Z) : Z :=
  foldr (λ b acc, b + 256 * acc)%Z 0%Z bytes.

Fixpoint wordsOf (count : nat) (bytes : list Z) : list Z :=
  match count with
  | 0 => []
  | S count' => wordOf (take 4 bytes) :: wordsOf count' (drop 4 bytes)
  end.

Definition round (M : list Z) (state : Z * Z * Z * Z) (i : nat) : Z * Z * Z * Z :=
  let '(A, B, C, D) := state in
  let '(F, g) :=
    if decide (i < 16) then (Z.lor (Z.land B C) (Z.land (not32 B) D), i)
    else if decide (i < 32) then (Z.lor (Z.land D B) (Z.land (not32 D) C), (5 * i + 1) `mod` 16)
    else if decide (i < 48) then (Z.lxor (Z.lxor B C) D, (3 * i + 5) `mod` 16)
    else (Z.lxor C (Z.lor B (not32 D)), (7 * i) `mod` 16) in
  let F := wrap (F + A + default 0%Z (sines !! i) + default 0%Z (M !! g)) in
  (D, wrap (B + rotateLeft F (default 0%Z (shifts !! i))), B, C).

Definition processChunk (state : Z * Z * Z * Z) (chunk : list Z) : Z * Z * Z * Z :=
  let M := wordsOf 16 chunk in
  let '(a0, b0, c0, d0) := state in
  let '(A, B, C, D) := foldl (round M) state (seq 0 64) in
  (wrap (a0 + A), wrap (b0 + B), wrap (c0 + C), wrap (d0 + D)).

Fixpoint chunks (count : nat) (bytes : list Z) : list (list Z) :=
  match count with
  | 0 => []
  | S count' => take 64 bytes :: chunks count' (drop 64 bytes)
  end.

Definition digest (message : list Z) : list Z :=
  let padded := pad message in
  let '(a0, b0, c0, d0) :=
    foldl processChunk
      (1732584193, 4023233417, 2562383102, 271733878)%Z
      (chunks (length padded `div` 64) padded) in
  littleEndian 4 a0 ++ littleEndian 4 b0 ++ littleEndian 4 c0 ++ littleEndian 4 d0.

Definition hexDigit (n : Z) : Ascii.ascii :=
  default "0"%char (String.list_ascii_of_string "0123456789abcdef" !! Z.to_nat n).

Definition hex (bytes : list Z) : string :=
  String.string_of_list_ascii
    (bytes ≫= λ b, [hexDigit (b `div` 16)%Z; hexDigit (b `mod` 16)%Z]).

Definition md5_hex (input : string) : string := hex (digest (bytesOf input)).

End MD5.

(** The digests of RFC 1321's test suite, and of the key the tests use. *)
Example md5_of_empty : MD5.md5_hex "" = "d41d8cd98f00b204e9800998ecf8427e".
Proof. by vm_compute. Qed.

Example md5_of_abc : MD5.md5_hex "abc" = "900150983cd24fb0d6963f7d28e17f72".
Proof. by vm_compute. Qed.

Example md5_of_message_digest : MD5.md5_hex "message digest" = "f96b697d7cb7938d525a2f31aaf161d0".
Proof. by vm_compute. Qed.

Example md5_of_alphabet : MD5.md5_hex "abcdefghijklmnopqrstuvwxyz" = "c3fcd3d76192e4007dfb496cca67e13b".
Proof. by vm_compute. Qed.

Example md5_of_llm_key : MD5.md5_hex "llm:key" = "8b5f129af2161e753f64653b700edef3".
Proof. by vm_compute. Qed.


(* ===================================================================== *)
(** ** Array.prototype.sort and Array.prototype.slice *)
(* ===================================================================== *)

(** [Array.prototype.sort] as V8 (Node.js) runs it on arrays of fewer than
    64 elements: [CountAndMakeRun] takes the longest run at the front
    (reversing a strictly descending one), then [BinaryInsertionSort] inserts
    each remaining element into the sorted front by binary search. The
    comparator is consulted only through the sign test [order < 0], always
    with the later element first. On longer arrays V8 merges such runs, with
    the same result whenever the sign test is a strict weak order, since
    both are stable sorts. *)
Section ArraySort.
Context {A : Type} (comparefn : A → A → Z).

Fixpoint extendRun (isDescending : bool) (previousElement : A) (rest : list A)
  : list A * list A :=
  match rest with
  | [] => ([], [])
  | currentElement :: rest' =>
      let order := comparefn currentElement previousElement in
      let stop := if isDescending then (0 <=? order)%Z else (order <? 0)%Z in
      if stop then ([], rest)
      else let '(run, remaining) := extendRun isDescending currentElement rest' in
           (currentElement :: run, remaining)
  end.

(** [CountAndMakeRun]: the second element is compared with the first, then
    [extendRun] runs the loop over the following ones. The result is the run
    (reversed when descending) and what remains of the array. *)
Definition CountAndMakeRun (workArray : list A) : list A * list A :=
  match workArray with
  | first :: second :: rest =>
      let order := comparefn second first in
      let isDescending := (order <? 0)%Z in
      let '(run, remaining) := extendRun isDescending second rest in
      let run := first :: second :: run in
      (if isDescending then reverse run else run, remaining)
  | _ => (workArray, [])
  end.

(** The binary search of [BinaryInsertionSort]: the loop
    [while (left < right)], with [fuel] bounding its iterations. *)
Fixpoint findInsertionPoint (fuel : nat) (workArray : list A) (pivot : A)
    (left right : nat) : nat :=
  match fuel with
  | 0 => left
  | S fuel' =>
      if decide (left < right) then
        let mid := left + (right - left) `div` 2 in
        match workArray !! mid with
        | Some element =>
            let order := comparefn pivot element in
            if (order <? 0)%Z
            then findInsertionPoint fuel' workArray pivot left mid
            else findInsertionPoint fuel' workArray pivot (mid + 1) right
        | None => left
        end
      else left
  end.

Definition insertAt (position : nat) (pivot : A) (workArray : list A) : list A :=
  take position workArray ++ pivot :: drop position workArray.

Definition insertPivot (sorted : list A) (pivot : A) : list A :=
  let n := length sorted in
  insertAt (findInsertionPoint n sorted pivot 0 n) pivot sorted.

Definition BinaryInsertionSort (sorted remaining : list A) : list A :=
  foldl insertPivot sorted remaining.

Definition Array_sort (array : list A) : list A :=
  let '(run, remaining) := CountAndMakeRun array in
  BinaryInsertionSort run remaining.

End ArraySort.

(** [array.slice(0, end)] for an integer [end]: a negative [end] counts from
    the back. *)
Definition Array_slice_from0 {A} (finish : Z) (array : list A) : list A :=
  let len := Z.of_nat (length array) in
  let final := if (finish <? 0)%Z then Z.max (len + finish) 0 else Z.min finish len in
  take (Z.to_nat final) array.


(* ===================================================================== *)
(** ** MemoryVectorStore *)
(* ===================================================================== *)

(** Modelled from the spec: [Document] ([document.js], not among the
    sources): the page content and the metadata, a mapping from strings to
    arbitrary values. *)
Record Document : Type := {
  pageContent : string;
  metadata : gmap string JSValue
}.

(** [interface MemoryVector]; its [metadata] field is [vectorMetadata] here,
    the name [metadata] being taken by [Document]. *)
Record MemoryVector : Type := {
  content : string;
  embedding : list number;
  vectorMetadata : gmap string JSValue
}.

(** The fields of a [MemoryVectorStore] object. The [embeddings] field is the
    [Embeddings] instance in scope. *)
Record MemoryVectorStore : Type := {
  memoryVectors : list MemoryVector;
  similarity : list number → list number → number
}.

(** [declare FilterType: (doc: Document) => boolean], an optional argument. *)
Definition FilterType : Type := option (Document → bool).

(** The default similarity, [ml_distance_similarity.cosine]: it runs over the
    indices of [a], accumulating the dot product and both squared norms, and
    returns [p / (sqrt(p2) * sqrt(q2))]. An index past the end of [b] reads
    [undefined], which arithmetic turns into [NaN]. *)
Fixpoint cosine_sums (a b : list number) (p p2 q2 : number)
  : number * number * number :=
  match a with
  | [] => (p, p2, q2)
  | ai :: a' =>
      let bi := default Number.NaN (head b) in
      cosine_sums a' (tail b)
        (Number.add p (Number.mul ai bi))
        (Number.add p2 (Number.mul ai ai))
        (Number.add q2 (Number.mul bi bi))
  end.

Definition cosine (a b : list number) : number :=
  let '(p, p2, q2) :=
    cosine_sums a b (Number.of_Z 0) (Number.of_Z 0) (Number.of_Z 0) in
  Number.div p (Number.mul (Number.sqrt p2) (Number.sqrt q2)).

(** [new MemoryVectorStore(embeddings, { similarity })] *)
Definition MemoryVectorStore_new
    (similarity : option (list number → list number → number)) : MemoryVectorStore :=
  {| memoryVectors := [];
     similarity := default cosine similarity |}.

(** [addVectors]: [vectors.map((embedding, idx) => ...)] reads
    [documents[idx]]; past the end of [documents] that is [undefined], and
    reading its [pageContent] throws. The store is assigned only after the
    whole map has run. *)
Definition addVectors (store : MemoryVectorStore)
    (vectors : list (list number)) (documents : list Document)
  : result MemoryVectorStore :=
  memoryVectors' ← mapM (λ '(idx, embedding),
      match documents !! idx with
      | Some document =>
          Ok {| content := pageContent document;
                embedding := embedding;
                vectorMetadata := metadata document |}
      | None => Throw TypeError
      end) (imap pair vectors);
  Ok {| memoryVectors := memoryVectors store ++ memoryVectors';
        similarity := similarity store |}.

(** The record-level part of the search, named as in the source. *)
Record Search : Type := {
  search_similarity : number;
  search_index : nat
}.

(** [(a, b) => (a.similarity > b.similarity ? -1 : 0)] *)
Definition compareSearches (a b : Search) : Z :=
  if Number.gt (search_similarity a) (search_similarity b) then (-1)%Z else 0%Z.

Definition documentOf (memoryVector : MemoryVector) : Document :=
  {| pageContent := content memoryVector;
     metadata := vectorMetadata memoryVector |}.

Definition filterFunction (filter : FilterType) (memoryVector : MemoryVector) : bool :=
  match filter with
  | None => true
  | Some filter => filter (documentOf memoryVector)
  end.

Definition filteredMemoryVectors (store : MemoryVectorStore) (filter : FilterType)
  : list MemoryVector :=
  List.filter (filterFunction filter) (memoryVectors store).

(** [filteredMemoryVectors.map((vector, index) => ({similarity, index}))] *)
Definition scoreAll (store : MemoryVectorStore) (query : list number)
    (filtered : list MemoryVector) : list Search :=
  imap (λ index vector,
          {| search_similarity := similarity store query (embedding vector);
             search_index := index |}) filtered.

(** [... .sort(...).slice(0, k)] *)
Definition searches (store : MemoryVectorStore) (query : list number) (k : Z)
    (filter : FilterType) : list Search :=
  Array_slice_from0 k
    (Array_sort compareSearches
       (scoreAll store query (filteredMemoryVectors store filter))).

Definition similaritySearchVectorWithScore (store : MemoryVectorStore)
    (query : list number) (k : Z) (filter : FilterType)
  : result (list (Document * number)) :=
  let filtered := filteredMemoryVectors store filter in
  mapM (λ search,
      match filtered !! search_index search with
      | Some memoryVector =>
          Ok (documentOf memoryVector, search_similarity search)
      | None => Throw TypeError
      end) (searches store query k filter).

(** [dropIndex] *)
Definition dropIndex (store : MemoryVectorStore) : MemoryVectorStore :=
  {| memoryVectors := []; similarity := similarity store |}.

Section Provider.
Context `{Embeddings}.

(** [addDocuments] *)
Definition addDocuments (store : MemoryVectorStore) (documents : list Document)
  : result MemoryVectorStore :=
  let texts := pageContent <$> documents in
  addVectors store (embedDocuments texts) documents.

(** [fromExistingIndex]: a new store, nothing added. *)
Definition fromExistingIndex
    (dbConfig : option (list number → list number → number)) : MemoryVectorStore :=
  MemoryVectorStore_new dbConfig.

(** Modelled from the spec: [similaritySearchWithScore] of the base class
    [VectorStore] ([base.js], not among the sources), which the threshold
    retriever calls: the query text is embedded by the provider and the
    search runs on that vector. *)
Definition similaritySearchWithScore (store : MemoryVectorStore)
    (query : string) (k : Z) (filter : FilterType)
  : result (list (Document * number)) :=
  similaritySearchVectorWithScore store (embedQuery query) k filter.

End Provider.


(* ===================================================================== *)
(** ** The semantic cache: MemorySemanticVectorStore *)
(* ===================================================================== *)

(** Modelled from the spec: [Generation] ([schema/index.js], not among the
    sources): a result with its textual content and optional further fields,
    spelled [{ text: string; generationInfo?: Record<string, any> }] in
    [loadGenerationsFromJson]. *)
Record Generation : Type := {
  text : string;
  generationInfo : option JSValue
}.

(** Modelled from the spec: the constructor of [GenerationChunk]
    ([schema/index.js], not among the sources). Of the decoded object the
    chunk keeps the [text]; the other fields are ignored by the decoder. *)
Definition GenerationChunk (text : string) : Generation :=
  {| text := text; generationInfo := None |}.

(** Modelled from the spec: a [ScoreThresholdRetriever]
    ([retrievers/score_threshold.js], not among the sources) wraps a store
    with two fixed parameters, the minimum similarity score and the maximum
    number of hits. The retriever holds the very store object that sits in
    the cache dictionary. *)
Record ScoreThresholdRetriever : Type := {
  vectorStore : MemoryVectorStore;
  minSimilarityScore : number;
  maxK : Z
}.

Definition fromVectorStore (store : MemoryVectorStore)
    (minSimilarityScore : number) (maxK : Z) : ScoreThresholdRetriever :=
  {| vectorStore := store;
     minSimilarityScore := minSimilarityScore;
     maxK := maxK |}.

(** [CacheDict] and the fields [MemorySemanticVectorStore] adds to the store
    it extends ([inherited]). [indexName in this.cacheDict] is membership in
    the map: every index name starts with [cache:], so none is a property of
    [Object.prototype]. *)
Record MemorySemanticVectorStore : Type := {
  inherited : MemoryVectorStore;
  cacheDict : gmap string MemoryVectorStore;
  scoreThreshold : number
}.

(** [new MemorySemanticVectorStore({ embeddings, scoreThreshold = 0.2, ...rest })] *)
Definition MemorySemanticVectorStore_new (scoreThreshold : option number)
    (similarity : option (list number → list number → number))
  : MemorySemanticVectorStore :=
  {| inherited := MemoryVectorStore_new similarity;
     cacheDict := ∅;
     scoreThreshold := default (Number.ratio 2 10) scoreThreshold |}.

(** The default threshold is the double written [0.2]. *)
Example default_scoreThreshold :
  scoreThreshold (MemorySemanticVectorStore_new None None) =
    S754_finite false 7205759403792794 (-55).
Proof. by vm_compute. Qed.

Definition set_cacheDict (cacheDict' : gmap string MemoryVectorStore)
    (this : MemorySemanticVectorStore) : MemorySemanticVectorStore :=
  {| inherited := inherited this;
     cacheDict := cacheDict';
     scoreThreshold := scoreThreshold this |}.

Section Cache.
Context `{JSONObject} `{Embeddings}.

(** [hash] and [indexName] *)
Definition hash (input : string) : string := MD5.md5_hex input.

Definition indexName (llmKey : string) : string :=
  let hashedIndex := hash llmKey in
  "cache:" +:+ hashedIndex.

(** The body of the [try] block of [loadGenerationsFromJson]. A result of
    [JSON.parse] that is not an array has no [map] to call. *)
Definition decodeGenerations (generationsJson : string) : result (list Generation) :=
  match JSON_parse generationsJson with
  | None => Throw SyntaxError
  | Some (JArray results) =>
      mapM (λ generationDict,
          value ← getProperty generationDict "text";
          match value with
          | JString text => Ok (GenerationChunk text)
          | _ => Throw (Error ("Invalid generation text: " +:+ ToString value))
          end) results
  | Some _ => Throw TypeError
  end.

Definition decodeErrorMessage (generationsJson : string) : string :=
  "Could not decode json to list of generations: " +:+ generationsJson.

Definition loadGenerationsFromJson (generationsJson : string) : result (list Generation) :=
  try_catch (decodeGenerations generationsJson)
    (λ error, Throw (Error (decodeErrorMessage generationsJson))).

Definition dumpGenerationsToJson (generations : list Generation) : string :=
  JSON_stringify
    (JArray ((λ generation, JObject [("text", JString (text generation))])
               <$> generations)).

(** Modelled from the spec: [getRelevantDocuments] of
    [ScoreThresholdRetriever] ([retrievers/score_threshold.js], not among the
    sources): it embeds the query text, runs the search with [k = maxK],
    then filters out every result whose score is strictly below
    [minSimilarityScore], and returns the documents that remain. *)
Definition getRelevantDocuments (retriever : ScoreThresholdRetriever)
    (query : string) : result (list Document) :=
  results ← similaritySearchWithScore (vectorStore retriever) query
              (maxK retriever) None;
  Ok ((List.filter (λ '(_, score),
         negb (Number.lt score (minSimilarityScore retriever))) results).*1).

(** Modelled from the spec: [addDocuments] of the retriever (inherited from
    [VectorStoreRetriever], not among the sources) appends to the wrapped
    store through the store's own [addDocuments]. *)
Definition retriever_addDocuments (retriever : ScoreThresholdRetriever)
    (documents : list Document) : result MemoryVectorStore :=
  addDocuments (vectorStore retriever) documents.

(** [getLlmCache]: the retriever over the namespace's store, which is
    created and entered in the dictionary when absent. *)
Definition getLlmCache (llmKey : string) (this : MemorySemanticVectorStore)
  : MemorySemanticVectorStore * ScoreThresholdRetriever :=
  let indexName := indexName llmKey in
  let minSimilarityScore := scoreThreshold this in
  let maxK := 1%Z in
  match cacheDict this !! indexName with
  | Some store => (this, fromVectorStore store minSimilarityScore maxK)
  | None =>
      let store := fromExistingIndex None in
      (set_cacheDict (<[indexName := store]> (cacheDict this)) this,
       fromVectorStore store minSimilarityScore maxK)
  end.

(** [clear]: the store is emptied in place, then its entry is deleted. *)
Definition clear (llmKey : string) (this : MemorySemanticVectorStore)
  : MemorySemanticVectorStore :=
  let indexName := indexName llmKey in
  match cacheDict this !! indexName with
  | Some store =>
      let dropped := <[indexName := dropIndex store]> (cacheDict this) in
      set_cacheDict (delete indexName dropped) this
  | None => this
  end.

(** [document.metadata.return_val], as [JSON.parse] and the template literal
    of the error message receive it: converted to a string. *)
Definition return_val (document : Document) : string :=
  ToString (default JUndefined (metadata document !! "return_val")).

(** The loop of [lookup] over the retrieved documents. *)
Fixpoint concatGenerations (generations : list Generation) (results : list Document)
  : result (list Generation) :=
  match results with
  | [] => Ok generations
  | document :: results' =>
      loaded ← loadGenerationsFromJson (return_val document);
      concatGenerations (generations ++ loaded) results'
  end.

(** [lookup]: the new state of the cache and either the generations, [null]
    ([None]) or the exception thrown. *)
Definition lookup (prompt llmKey : string) (this : MemorySemanticVectorStore)
  : MemorySemanticVectorStore * result (option (list Generation)) :=
  let '(this, llmCache) := getLlmCache llmKey this in
  (this,
   results ← getRelevantDocuments llmCache prompt;
   generations ← concatGenerations [] results;
   Ok (if decide (0 < length generations) then Some generations else None)).

(** [update]. The document goes into the store the retriever wraps, which is
    the object held in [cacheDict] under the index name: the entry is written
    back there. Nothing is written when [addDocuments] throws. *)
Definition update (prompt llmKey : string) (returnVal : list Generation)
    (this : MemorySemanticVectorStore)
  : MemorySemanticVectorStore * result () :=
  let '(this, llmCache) := getLlmCache llmKey this in
  let metadata : gmap string JSValue :=
    {[ "llm_string" := JString llmKey;
       "prompt" := JString prompt;
       "return_val" := JString (dumpGenerationsToJson returnVal) ]} in
  let document := {| pageContent := prompt; metadata := metadata |} in
  match retriever_addDocuments llmCache [document] with
  | Ok store =>
      (set_cacheDict (<[indexName llmKey := store]> (cacheDict this)) this, Ok ())
  | Throw e => (this, Throw e)
  end.

End Cache.


(* ===================================================================== *)
(** ** A JSON reader and writer for the examples *)
(* ===================================================================== *)

(** The examples need a concrete [JSON] object. This one writes every value
    as [JSON.stringify] does and reads the texts made of [null], [true],
    [false], strings (without [\u] escapes), arrays and objects as
    [JSON.parse] does; it rejects a text with a number literal, which no
    example contains. The theorems below hold for every [JSONObject]. *)
Module JSONFragment.

Definition quote : ascii := "034"%char.
Definition backslash : ascii := "092"%char.

Definition escape (c : ascii) : list ascii :=
  if decide (c = quote) then [backslash; quote]
  else if decide (c = backslash) then [backslash; backslash]
  else if decide (c = "008"%char) then [backslash; "b"%char]
  else if decide (c = "009"%char) then [backslash; "t"%char]
  else if decide (c = "010"%char) then [backslash; "n"%char]
  else if decide (c = "012"%char) then [backslash; "f"%char]
  else if decide (c = "013"%char) then [backslash; "r"%char]
  else if decide (nat_of_ascii c < 32) then
    [backslash; "u"%char; "0"%char; "0"%char;
     MD5.hexDigit (Z.of_nat (nat_of_ascii c `div` 16));
     MD5.hexDigit (Z.of_nat (nat_of_ascii c `mod` 16))]
  else [c].

Definition writeString (s : string) : list ascii :=
  quote :: (String.list_ascii_of_string s ≫= escape) ++ [quote].

Fixpoint joinWith {A} (separator : list A) (parts : list (list A)) : list A :=
  match parts with
  | [] => []
  | [part] => part
  | part :: parts' => part ++ separator ++ joinWith separator parts'
  end.

(** In an array [undefined] is written [null]; an object property whose
    value is [undefined] is left out. *)
Fixpoint write (v : JSValue) : list ascii :=
  match v with
  | JUndefined | JNull => String.list_ascii_of_string "null"
  | JBool true => String.list_ascii_of_string "true"
  | JBool false => String.list_ascii_of_string "false"
  | JNumber text => String.list_ascii_of_string text
  | JString s => writeString s
  | JArray elements =>
      "["%char :: joinWith [","%char] (write <$> elements) ++ ["]"%char]
  | JObject properties =>
      "{"%char ::
        joinWith [","%char]
          ((fix members (l : list (string * JSValue)) : list (list ascii) :=
              match l with
              | [] => []
              | (_, JUndefined) :: l' => members l'
              | (k, x) :: l' => (writeString k ++ ":"%char :: write x) :: members l'
              end) properties)
        ++ ["}"%char]
  end.

Definition stringify (v : JSValue) : string := String.string_of_list_ascii (write v).

Definition isWhitespace (c : ascii) : bool :=
  bool_decide (c = " "%char ∨ c = "009"%char ∨ c = "010"%char ∨ c = "013"%char).

Fixpoint skipWhitespace (input : list ascii) : list ascii :=
  match input with
  | c :: rest => if isWhitespace c then skipWhitespace rest else input
  | [] => []
  end.

Definition unescape (c : ascii) : option ascii :=
  if decide (c = quote) then Some quote
  else if decide (c = backslash) then Some backslash
  else if decide (c = "/"%char) then Some "/"%char
  else if decide (c = "b"%char) then Some "008"%char
  else if decide (c = "t"%char) then Some "009"%char
  else if decide (c = "n"%char) then Some "010"%char
  else if decide (c = "f"%char) then Some "012"%char
  else if decide (c = "r"%char) then Some "013"%char
  else None.

(** The characters of a string literal after its opening quote. *)
Fixpoint readString (input : list ascii) (read : list ascii)
  : option (string * list ascii) :=
  match input with
  | [] => None
  | c :: rest =>
      if decide (c = quote) then Some (String.string_of_list_ascii (reverse read), rest)
      else if decide (c = backslash) then
        match rest with
        | e :: rest' =>
            match unescape e with
            | Some d => readString rest' (d :: read)
            | None => None
            end
        | [] => None
        end
      else if decide (nat_of_ascii c < 32) then None
      else readString rest (c :: read)
  end.

(** A later property of the same name replaces the earlier one. *)
Fixpoint setProperty (key : string) (v : JSValue) (properties : list (string * JSValue))
  : list (string * JSValue) :=
  match properties with
  | [] => [(key, v)]
  | (k, x) :: rest =>
      if String.eqb k key then (k, v) :: rest else (k, x) :: setProperty key v rest
  end.

Fixpoint readValue (fuel : nat) (input : list ascii) {struct fuel}
  : option (JSValue * list ascii) :=
  match fuel with
  | 0 => None
  | S fuel' =>
      match skipWhitespace input with
      | "n"%char :: "u"%char :: "l"%char :: "l"%char :: rest => Some (JNull, rest)
      | "t"%char :: "r"%char :: "u"%char :: "e"%char :: rest => Some (JBool true, rest)
      | "f"%char :: "a"%char :: "l"%char :: "s"%char :: "e"%char :: rest =>
          Some (JBool false, rest)
      | "034"%char :: rest =>
          '(s, rest') ← readString rest []; Some (JString s, rest')
      | "["%char :: rest =>
          match skipWhitespace rest with
          | "]"%char :: rest' => Some (JArray [], rest')
          | _ => '(elements, rest') ← readElements fuel' rest;
                 Some (JArray elements, rest')
          end
      | "{"%char :: rest =>
          match skipWhitespace rest with
          | "}"%char :: rest' => Some (JObject [], rest')
          | _ => '(properties, rest') ← readMembers fuel' rest [];
                 Some (JObject properties, rest')
          end
      | _ => None
      end
  end
with readElements (fuel : nat) (input : list ascii) {struct fuel}
  : option (list JSValue * list ascii) :=
  match fuel with
  | 0 => None
  | S fuel' =>
      '(v, rest) ← readValue fuel' input;
      match skipWhitespace rest with
      | ","%char :: rest' =>
          '(elements, rest'') ← readElements fuel' rest';
          Some (v :: elements, rest'')
      | "]"%char :: rest' => Some ([v], rest')
      | _ => None
      end
  end
with readMembers (fuel : nat) (input : list ascii) (properties : list (string * JSValue))
    {struct fuel} : option (list (string * JSValue) * list ascii) :=
  match fuel with
  | 0 => None
  | S fuel' =>
      match skipWhitespace input with
      | "034"%char :: rest =>
          '(key, rest) ← readString rest [];
          match skipWhitespace rest with
          | ":"%char :: rest =>
              '(v, rest) ← readValue fuel' rest;
              let properties := setProperty key v properties in
              match skipWhitespace rest with
              | ","%char :: rest' => readMembers fuel' rest' properties
              | "}"%char :: rest' => Some (properties, rest')
              | _ => None
              end
          | _ => None
          end
      | _ => None
      end
  end.

Definition parse (text : string) : option JSValue :=
  let input := String.list_ascii_of_string text in
  '(v, rest) ← readValue (2 * length input + 2) input;
  match skipWhitespace rest with
  | [] => Some v
  | _ :: _ => None
  end.

Definition object : JSONObject :=
  {| JSON_parse := parse; JSON_stringify := stringify |}.

End JSONFragment.

(** The writer's output is read back, escapes included. *)
Example JSONFragment_round_trip :
  let value :=
    JArray [JObject [("text", JString ("Lee " +:+ String JSONFragment.quote "Harvey"
                                        +:+ String JSONFragment.backslash " Oswald"));
                     ("finish_reason", JNull)];
            JArray []; JBool true; JObject []] in
  JSONFragment.parse (JSONFragment.stringify value) = Some value ∧
  JSONFragment.stringify (JArray [JObject [("text", JString "X")]]) =
    String.string_of_list_ascii
      (String.list_ascii_of_string "[{" ++ [JSONFragment.quote]
       ++ String.list_ascii_of_string "text" ++ [JSONFragment.quote; ":"%char;
       JSONFragment.quote; "X"%char; JSONFragment.quote]
       ++ String.list_ascii_of_string "}]") ∧
  JSONFragment.parse "not json" = None.
Proof. cbv zeta. split_and!; by vm_compute. Qed.

(** An embedding provider for the examples: a text of [n] bytes is embedded
    as the vector [(n, 1)], whichever of the two methods is asked. *)
Definition lengthEmbeddings : Embeddings :=
  {| embedDocuments := λ texts,
       (λ text, [Number.of_Z (Z.of_nat (String.length text)); Number.of_Z 1]) <$> texts;
     embedQuery := λ text,
       [Number.of_Z (Z.of_nat (String.length text)); Number.of_Z 1] |}.


(* ===================================================================== *)
(** ** Facts about the sort *)
(* ===================================================================== *)

Section ArraySortPermutation.
Context {A : Type} (comparefn : A → A → Z).

Lemma extendRun_app isDescending previousElement rest run remaining :
  extendRun comparefn isDescending previousElement rest = (run, remaining) →
  rest = run ++ remaining.
Proof.
  revert previousElement run remaining.
  induction rest as [|cur rest IH]; intros prev run remaining; simpl.
  - by intros [= <- <-].
  - destruct (if isDescending then _ else _).
    + by intros [= <- <-].
    + destruct (extendRun comparefn isDescending cur rest) as [run' rem'] eqn:E.
      intros [= <- <-]. simpl. f_equal. by eapply IH.
Qed.

Lemma CountAndMakeRun_Permutation workArray run remaining :
  CountAndMakeRun comparefn workArray = (run, remaining) →
  run ++ remaining ≡ₚ workArray.
Proof.
  destruct workArray as [|lo [|hi rest]]; simpl.
  - by intros [= <- <-].
  - by intros [= <- <-].
  - destruct (extendRun comparefn _ hi rest) as [run' rem'] eqn:E.
    apply extendRun_app in E as ->.
    intros [= <- <-].
    destruct (comparefn hi lo <? 0)%Z; [|done].
    by rewrite reverse_Permutation.
Qed.

Lemma insertAt_Permutation position pivot (workArray : list A) :
  insertAt position pivot workArray ≡ₚ pivot :: workArray.
Proof.
  unfold insertAt. rewrite <-Permutation_middle.
  by rewrite take_drop.
Qed.

Lemma BinaryInsertionSort_Permutation sorted remaining :
  BinaryInsertionSort comparefn sorted remaining ≡ₚ sorted ++ remaining.
Proof.
  unfold BinaryInsertionSort. revert sorted.
  induction remaining as [|pivot remaining IH]; intros sorted; simpl.
  - by rewrite app_nil_r.
  - rewrite IH. unfold insertPivot. rewrite insertAt_Permutation.
    by rewrite <-Permutation_middle.
Qed.

(** The binary search never runs out of fuel: any two bounds that cover the
    interval give the same insertion point, whatever the comparator. *)
Lemma findInsertionPoint_fuel fuel fuel' (workArray : list A) pivot left right :
  right - left ≤ fuel → right - left ≤ fuel' →
  findInsertionPoint comparefn fuel workArray pivot left right =
  findInsertionPoint comparefn fuel' workArray pivot left right.
Proof.
  revert fuel' left right.
  induction fuel as [|fuel IH]; intros fuel' left right Hfuel Hfuel'.
  - destruct fuel' as [|fuel']; [done|]. simpl.
    destruct (decide (left < right)); [lia|done].
  - destruct fuel' as [|fuel'].
    + simpl. destruct (decide (left < right)); [lia|done].
    + simpl. destruct (decide (left < right)) as [Hlt|]; [|done].
      assert ((right - left) `div` 2 < right - left) as Hhalf
        by (apply Nat.div_lt; lia).
      change (Nat.divmod (right - left) 1 0 1).1 with ((right - left) `div` 2).
      destruct (workArray !! _) as [element|]; [|done].
      destruct (comparefn pivot element <? 0)%Z; apply IH; lia.
Qed.

Lemma Array_sort_Permutation array : Array_sort comparefn array ≡ₚ array.
Proof.
  unfold Array_sort.
  destruct (CountAndMakeRun comparefn array) as [run remaining] eqn:E.
  rewrite BinaryInsertionSort_Permutation.
  by apply CountAndMakeRun_Permutation.
Qed.

Lemma Array_sort_length array : length (Array_sort comparefn array) = length array.
Proof. by rewrite Array_sort_Permutation. Qed.

End ArraySortPermutation.

Lemma StronglySorted_lookup {A} (R : relation A) l i j x y :
  StronglySorted R l → i < j → l !! i = Some x → l !! j = Some y → R x y.
Proof.
  intros HS. revert i j. induction HS as [|a l HS IH Hall]; intros i j Hij Hi Hj.
  - done.
  - destruct i as [|i], j as [|j]; simpl in *; try lia.
    + injection Hi as ->. rewrite Forall_forall in Hall.
      apply Hall. by eapply list_elem_of_lookup_2.
    + eapply IH; [|done..]. lia.
Qed.

Lemma StronglySorted_and {A} (R1 R2 : relation A) l :
  StronglySorted R1 l → StronglySorted R2 l →
  StronglySorted (λ x y, R1 x y ∧ R2 x y) l.
Proof.
  induction l as [|a l IH]; intros H1 H2; [constructor|].
  apply StronglySorted_cons in H1 as [F1 H1], H2 as [F2 H2].
  apply StronglySorted_cons. split; [|auto].
  rewrite Forall_forall in *. auto.
Qed.

Lemma StronglySorted_impl {A} (R1 R2 : relation A) l :
  (∀ x y, x ∈ l → y ∈ l → R1 x y → R2 x y) →
  StronglySorted R1 l → StronglySorted R2 l.
Proof.
  induction l as [|a l IH]; intros HR H1; [constructor|].
  apply StronglySorted_cons in H1 as [F1 H1].
  apply StronglySorted_cons. split.
  - rewrite Forall_forall in *. intros y Hy.
    apply HR; [left|right|]; auto.
  - apply IH; [|done]. intros x y Hx Hy. apply HR; by right.
Qed.

Lemma StronglySorted_reverse {A} (R : relation A) l :
  StronglySorted R l → StronglySorted (flip R) (reverse l).
Proof.
  induction 1 as [|a l HS IH Hall]; [constructor|].
  rewrite reverse_cons. apply StronglySorted_app. split_and!.
  - intros x y Hx Hy. apply list_elem_of_singleton in Hy as ->.
    rewrite Forall_forall in Hall. apply Hall. by apply elem_of_reverse.
  - done.
  - repeat constructor.
Qed.

Lemma StronglySorted_take {A} (R : relation A) n l :
  StronglySorted R l → StronglySorted R (take n l).
Proof.
  intros HS. rewrite <-(take_drop n l) in HS.
  by apply StronglySorted_app_1_l in HS.
Qed.

(** The sort is a stable sort as soon as the sign test [order < 0] behaves as
    a strict weak order on the elements at hand ([ok]). [position] records
    where an element stood in the input. *)
Section ArraySortStable.
Context {A : Type} (comparefn : A → A → Z).
Context (ok : A → Prop) (position : A → nat).

Definition precedes (x y : A) : bool := (comparefn x y <? 0)%Z.

Hypothesis precedes_asym : ∀ x y,
  ok x → ok y → precedes x y = true → precedes y x = false.
Hypothesis precedes_trans : ∀ x y z,
  ok x → ok y → ok z →
  precedes x y = true → precedes y z = true → precedes x z = true.
Hypothesis precedes_negtrans : ∀ x y z,
  ok x → ok y → ok z →
  precedes x y = false → precedes y z = false → precedes x z = false.

(** [x] belongs before [y] in the output: it precedes [y], or neither
    precedes the other and [x] came first in the input. *)
Definition before (x y : A) : Prop :=
  precedes x y = true ∨ (precedes y x = false ∧ position x < position y).

Definition inputOrder (x y : A) : Prop := position x < position y.

Lemma before_not_precedes x y : ok x → ok y → before x y → precedes y x = false.
Proof. intros ?? [?|[? _]]; auto. Qed.

Lemma extendRun_ascending previousElement rest run remaining :
  extendRun comparefn false previousElement rest = (run, remaining) →
  ok previousElement → Forall ok rest →
  StronglySorted (λ x y, precedes y x = false) (previousElement :: run).
Proof.
  revert previousElement run remaining.
  induction rest as [|cur rest IH]; intros prev run remaining; simpl.
  - intros [= <- <-] _ _. repeat constructor.
  - destruct (comparefn cur prev <? 0)%Z eqn:Hord.
    + intros [= <- <-] _ _. repeat constructor.
    + destruct (extendRun comparefn false cur rest) as [run' rem'] eqn:E.
      intros [= <- <-] Hprev Hrest.
      apply Forall_cons in Hrest as [Hcur Hrest].
      specialize (IH _ _ _ E Hcur Hrest).
      apply StronglySorted_cons. split; [|done].
      apply Forall_cons. split; [done|].
      apply StronglySorted_cons in IH as [Hall _].
      apply extendRun_app in E as ->.
      apply Forall_app in Hrest as [Hrun _].
      rewrite Forall_forall in *. intros y Hy.
      apply (precedes_negtrans y cur prev); auto.
Qed.

Lemma extendRun_descending previousElement rest run remaining :
  extendRun comparefn true previousElement rest = (run, remaining) →
  ok previousElement → Forall ok rest →
  StronglySorted (λ x y, precedes y x = true) (previousElement :: run).
Proof.
  revert previousElement run remaining.
  induction rest as [|cur rest IH]; intros prev run remaining; simpl.
  - intros [= <- <-] _ _. repeat constructor.
  - destruct (0 <=? comparefn cur prev)%Z eqn:Hord.
    + intros [= <- <-] _ _. repeat constructor.
    + destruct (extendRun comparefn true cur rest) as [run' rem'] eqn:E.
      intros [= <- <-] Hprev Hrest.
      apply Forall_cons in Hrest as [Hcur Hrest].
      specialize (IH _ _ _ E Hcur Hrest).
      assert (precedes cur prev = true) as Hcp.
      { unfold precedes. apply Z.leb_gt in Hord. by apply Z.ltb_lt. }
      apply StronglySorted_cons. split; [|done].
      apply Forall_cons. split; [done|].
      apply StronglySorted_cons in IH as [Hall _].
      apply extendRun_app in E as ->.
      apply Forall_app in Hrest as [Hrun _].
      rewrite Forall_forall in *. intros y Hy.
      apply (precedes_trans y cur prev); auto.
Qed.

Lemma CountAndMakeRun_sorted workArray run remaining :
  CountAndMakeRun comparefn workArray = (run, remaining) →
  Forall ok workArray → StronglySorted inputOrder workArray →
  StronglySorted before run.
Proof.
  destruct workArray as [|lo [|hi rest]]; simpl.
  - intros [= <- <-] _ _. constructor.
  - intros [= <- <-] _ _. repeat constructor.
  - destruct (extendRun comparefn _ hi rest) as [run' rem'] eqn:E.
    intros [= <- <-] Hok Hpos.
    apply Forall_cons in Hok as [Hlo Hok].
    apply Forall_cons in Hok as [Hhi Hok].
    pose proof (extendRun_app _ _ _ _ _ _ E) as Hrest.
    assert (StronglySorted inputOrder (lo :: hi :: run')) as Hpos'.
    { subst rest. change (lo :: hi :: run' ++ rem')
        with ((lo :: hi :: run') ++ rem') in Hpos.
      by apply StronglySorted_app_1_l in Hpos. }
    assert (Forall ok (lo :: hi :: run')) as Hok'.
    { subst rest. apply Forall_app in Hok as [? _]. by repeat constructor. }
    destruct (comparefn hi lo <? 0)%Z eqn:Hord.
    + apply extendRun_descending in E; [|done..].
      assert (StronglySorted (λ x y, precedes y x = true) (lo :: hi :: run')) as HS.
      { apply StronglySorted_cons. split; [|done].
        apply Forall_cons. split; [done|].
        apply StronglySorted_cons in E as [Hall _].
        rewrite Forall_forall in *. intros y Hy.
        apply (precedes_trans y hi lo); try done.
        - apply Hok'. by do 2 right.
        - by apply Hall. }
      apply StronglySorted_reverse in HS.
      eapply StronglySorted_impl; [|exact HS].
      intros x y _ _ Hxy. by left.
    + apply extendRun_ascending in E; [|done..].
      assert (StronglySorted (λ x y, precedes y x = false) (lo :: hi :: run')) as HS.
      { apply StronglySorted_cons. split; [|done].
        apply Forall_cons. split; [done|].
        apply StronglySorted_cons in E as [Hall _].
        rewrite Forall_forall in *. intros y Hy.
        apply (precedes_negtrans y hi lo); try done.
        - apply Hok'. by do 2 right.
        - by apply Hall. }
      eapply StronglySorted_impl; [|exact (StronglySorted_and _ _ _ HS Hpos')].
      intros x y _ _ [Hxy Hp]. by right.
Qed.

Lemma findInsertionPoint_S fuel (workArray : list A) pivot left right :
  findInsertionPoint comparefn (S fuel) workArray pivot left right =
  if decide (left < right) then
    match workArray !! (left + (right - left) `div` 2) with
    | Some element =>
        if precedes pivot element
        then findInsertionPoint comparefn fuel workArray pivot left
               (left + (right - left) `div` 2)
        else findInsertionPoint comparefn fuel workArray pivot
               (left + (right - left) `div` 2 + 1) right
    | None => left
    end
  else left.
Proof. reflexivity. Qed.

Lemma findInsertionPoint_spec fuel sorted pivot left right :
  StronglySorted before sorted → Forall ok sorted → ok pivot →
  left ≤ right → right ≤ length sorted → right - left ≤ fuel →
  (∀ j e, sorted !! j = Some e → j < left → precedes pivot e = false) →
  (∀ j e, sorted !! j = Some e → right ≤ j → precedes pivot e = true) →
  (∀ j e, sorted !! j = Some e →
     j < findInsertionPoint comparefn fuel sorted pivot left right →
     precedes pivot e = false) ∧
  (∀ j e, sorted !! j = Some e →
     findInsertionPoint comparefn fuel sorted pivot left right ≤ j →
     precedes pivot e = true).
Proof.
  intros HS Hok Hpivot. revert left right.
  induction fuel as [|fuel IH]; intros left right Hlr Hr Hfuel Hleft Hright.
  - assert (left = right) as -> by lia. simpl. auto.
  - rewrite findInsertionPoint_S.
    destruct (decide (left < right)) as [Hlt|Hge];
      [|assert (left = right) as -> by lia; auto].
    pose proof (Nat.Div0.div_le_upper_bound (right - left) 2 (right - left)) as Hdiv.
    assert ((right - left) `div` 2 < right - left) as Hhalf
      by (apply Nat.div_lt; lia).
    set (mid := left + (right - left) `div` 2) in *.
    assert (mid < length sorted) as Hmid by lia.
    destruct (lookup_lt_is_Some_2 sorted mid Hmid) as [element Helement].
    rewrite Helement.
    assert (ok element) as Hel.
    { rewrite Forall_forall in Hok. apply Hok. by eapply list_elem_of_lookup_2. }
    destruct (precedes pivot element) eqn:Hord.
    + apply IH; [lia..|done|].
      intros j e Hj Hmj.
      assert (ok e) as He.
      { rewrite Forall_forall in Hok. apply Hok. by eapply list_elem_of_lookup_2. }
      destruct (decide (j = mid)) as [->|Hne]; [congruence|].
      assert (precedes e element = false) as Hee.
      { apply before_not_precedes; [done..|].
        eapply (StronglySorted_lookup _ _ mid j); [done|lia|done..]. }
      destruct (precedes pivot e) eqn:Hpe; [done|].
      rewrite (precedes_negtrans pivot e element) in Hord; auto.
    + apply IH; [lia..| |done].
      intros j e Hj Hjm.
      assert (ok e) as He.
      { rewrite Forall_forall in Hok. apply Hok. by eapply list_elem_of_lookup_2. }
      destruct (decide (j = mid)) as [->|Hne]; [congruence|].
      assert (precedes element e = false) as Hee.
      { apply before_not_precedes; [done..|].
        eapply (StronglySorted_lookup _ _ j mid); [done|lia|done..]. }
      apply (precedes_negtrans pivot element e); auto.
Qed.

Lemma insertPivot_sorted sorted pivot :
  StronglySorted before sorted → Forall ok sorted → ok pivot →
  Forall (λ e, position e < position pivot) sorted →
  StronglySorted before (insertPivot comparefn sorted pivot).
Proof.
  intros HS Hok Hpivot Hpos. unfold insertPivot, insertAt.
  destruct (findInsertionPoint_spec (length sorted) sorted pivot 0 (length sorted))
    as [Hbelow Habove]; [done..|lia|lia|lia| | |].
  { intros; lia. }
  { intros j e Hj Hlen. apply lookup_lt_Some in Hj. lia. }
  set (p := findInsertionPoint _ _ _ _ _ _) in *.
  rewrite <-(take_drop p sorted) in HS.
  apply StronglySorted_app in HS as (Hcross & Htake & Hdrop).
  rewrite Forall_forall in Hpos.
  apply StronglySorted_app. split_and!.
  - intros x y Hx Hy. apply elem_of_cons in Hy as [->|Hy]; [|by apply Hcross].
    apply list_elem_of_lookup in Hx as [j Hj].
    apply lookup_take_Some in Hj as [Hj Hjp].
    right. split; [by eapply Hbelow|].
    apply Hpos. by eapply list_elem_of_lookup_2.
  - done.
  - apply StronglySorted_cons. split; [|done].
    apply Forall_forall. intros y Hy.
    apply list_elem_of_lookup in Hy as [j Hj].
    rewrite lookup_drop in Hj. left. eapply Habove; [done|lia].
Qed.

Lemma BinaryInsertionSort_sorted sorted remaining :
  StronglySorted before sorted → Forall ok sorted → Forall ok remaining →
  StronglySorted inputOrder remaining →
  (∀ x y, x ∈ sorted → y ∈ remaining → position x < position y) →
  StronglySorted before (BinaryInsertionSort comparefn sorted remaining).
Proof.
  unfold BinaryInsertionSort. revert sorted.
  induction remaining as [|pivot remaining IH];
    intros sorted HS Hok Hrem Hpos Hcross; simpl; [done|].
  apply Forall_cons in Hrem as [Hpivot Hrem].
  apply StronglySorted_cons in Hpos as [Hpp Hpos].
  apply IH; [| |done|done|].
  - apply insertPivot_sorted; [done..|].
    apply Forall_forall. intros e He. apply Hcross; [done|left].
  - unfold insertPivot.
    rewrite insertAt_Permutation. by constructor.
  - intros x y Hx Hy. unfold insertPivot in Hx.
    rewrite insertAt_Permutation in Hx.
    apply elem_of_cons in Hx as [->|Hx].
    + rewrite Forall_forall in Hpp. by apply Hpp.
    + apply Hcross; [done|by right].
Qed.

(** The output of the sort is ordered by [before]: sorted, and stable. *)
Lemma Array_sort_sorted array :
  Forall ok array → StronglySorted inputOrder array →
  StronglySorted before (Array_sort comparefn array).
Proof.
  intros Hok Hpos. unfold Array_sort.
  destruct (CountAndMakeRun comparefn array) as [run remaining] eqn:E.
  pose proof (CountAndMakeRun_Permutation _ _ _ _ E) as Hperm.
  assert (Forall ok (run ++ remaining)) as Hok' by (by rewrite Hperm).
  apply Forall_app in Hok' as [Hrun Hrem].
  assert (∃ raw, raw ++ remaining = array ∧ raw ≡ₚ run) as (raw & Hraw & Hrr).
  { clear -E. destruct array as [|lo [|hi rest]]; simpl in E.
    - injection E as <- <-. by exists [].
    - injection E as <- <-. exists [lo]. by rewrite app_nil_r.
    - destruct (extendRun comparefn _ hi rest) as [run' rem'] eqn:E'.
      apply extendRun_app in E' as ->. injection E as <- <-.
      exists (lo :: hi :: run'). split; [done|].
      destruct (comparefn hi lo <? 0)%Z; [|done].
      by rewrite reverse_Permutation. }
  subst array.
  apply BinaryInsertionSort_sorted; [|done..| |].
  - by eapply CountAndMakeRun_sorted.
  - by apply StronglySorted_app_1_r in Hpos.
  - intros x y Hx Hy. rewrite <-Hrr in Hx.
    by eapply (StronglySorted_app_1_elem_of inputOrder raw remaining).
Qed.

(** Under the same conditions the output is determined by the order
    [before] alone: any arrangement of the input that is ordered by [before]
    is the one the sort returns. Whatever way an engine sorts, if its sort is
    stable for this sign test it returns the same array. *)
Lemma Array_sort_unique array arranged :
  Forall ok array → StronglySorted inputOrder array →
  arranged ≡ₚ array → StronglySorted before arranged →
  arranged = Array_sort comparefn array.
Proof.
  intros Hok Hpos Hperm Hsorted.
  apply (StronglySorted_unique_strong before); [|done| |].
  - intros x y Hx Hy Hxy Hyx. exfalso.
    rewrite Hperm in Hx. rewrite Array_sort_Permutation in Hy.
    rewrite Forall_forall in Hok.
    pose proof (Hok _ Hx) as Hokx. pose proof (Hok _ Hy) as Hoky.
    destruct Hxy as [Hxy|[Hxy Hp]], Hyx as [Hyx|[Hyx Hq]].
    + rewrite (precedes_asym _ _ Hokx Hoky Hxy) in Hyx. done.
    + congruence.
    + congruence.
    + lia.
  - by apply Array_sort_sorted.
  - by rewrite Array_sort_Permutation.
Qed.

End ArraySortStable.

Lemma StronglySorted_of_lookup {A} (R : relation A) l :
  (∀ i j x y, i < j → l !! i = Some x → l !! j = Some y → R x y) →
  StronglySorted R l.
Proof.
  induction l as [|a l IH]; intros HR; [constructor|].
  apply StronglySorted_cons. split.
  - apply Forall_forall. intros y Hy.
    apply list_elem_of_lookup in Hy as [j Hj].
    apply (HR 0 (S j)); [lia|done..].
  - apply IH. intros i j x y Hij Hi Hj.
    apply (HR (S i) (S j)); [lia|done..].
Qed.

Lemma mapM_Ok {A B} (f : A → result B) (g : A → B) (l : list A) :
  (∀ x, x ∈ l → f x = Ok (g x)) → mapM f l = Ok (g <$> l).
Proof.
  induction l as [|x l IH]; intros Hf; [done|].
  simpl. rewrite (Hf x) by left. simpl.
  rewrite IH by (intros; apply Hf; by right). done.
Qed.

Lemma Array_slice_from0_take {A} (k : Z) (array : list A) :
  (0 ≤ k)%Z → Array_slice_from0 k array = take (Z.to_nat k) array.
Proof.
  intros Hk. unfold Array_slice_from0.
  destruct (k <? 0)%Z eqn:E; [apply Z.ltb_lt in E; lia|].
  destruct (decide (k ≤ Z.of_nat (length array))%Z).
  - by rewrite Z.min_l.
  - rewrite Z.min_r by lia. rewrite Nat2Z.id.
    rewrite !take_ge; [done|lia|lia].
Qed.

(* ===================================================================== *)
(** ** Facts about the similarity search *)
(* ===================================================================== *)

Section SearchFacts.
Context (store : MemoryVectorStore) (query : list number) (filter : FilterType).

Definition scoreOf (memoryVector : MemoryVector) : number :=
  similarity store query (embedding memoryVector).

(** What the search pairs with each filtered record. *)
Definition scored (memoryVector : MemoryVector) : Document * number :=
  (documentOf memoryVector, scoreOf memoryVector).

Definition notNaN (search : Search) : Prop :=
  Number.isNaN (search_similarity search) = false.

Lemma scoreAll_lookup filtered i search :
  scoreAll store query filtered !! i = Some search ↔
  ∃ memoryVector, filtered !! i = Some memoryVector ∧
    search = {| search_similarity := scoreOf memoryVector; search_index := i |}.
Proof.
  unfold scoreAll. rewrite list_lookup_imap.
  destruct (filtered !! i) as [v|]; simpl; split.
  - intros [= <-]. eauto.
  - intros (v' & [= <-] & ->). done.
  - done.
  - intros (? & [=] & _).
Qed.

Lemma scoreAll_length filtered :
  length (scoreAll store query filtered) = length filtered.
Proof. apply length_imap. Qed.

Lemma scoreAll_inputOrder filtered :
  StronglySorted (inputOrder search_index) (scoreAll store query filtered).
Proof.
  apply StronglySorted_of_lookup. intros i j x y Hij Hi Hj.
  apply scoreAll_lookup in Hi as (? & _ & ->).
  apply scoreAll_lookup in Hj as (? & _ & ->). done.
Qed.

Lemma precedes_compareSearches a b :
  precedes compareSearches a b =
  Number.gt (search_similarity a) (search_similarity b).
Proof. unfold precedes, compareSearches. by destruct (Number.gt _ _). Qed.

Lemma searches_sorted_before :
  Forall (λ v, Number.isNaN (scoreOf v) = false) (filteredMemoryVectors store filter) →
  StronglySorted (before compareSearches search_index)
    (Array_sort compareSearches
       (scoreAll store query (filteredMemoryVectors store filter))).
Proof.
  intros Hnan. apply (Array_sort_sorted compareSearches notNaN).
  - intros x y _ _. rewrite !precedes_compareSearches. apply gt_asym.
  - intros x y z _ _ _. rewrite !precedes_compareSearches. apply gt_trans.
  - intros x y z Hx Hy Hz. rewrite !precedes_compareSearches.
    by apply gt_negtrans.
  - apply Forall_forall. intros s Hs.
    apply list_elem_of_lookup in Hs as [i Hi].
    apply scoreAll_lookup in Hi as (v & Hv & ->).
    rewrite Forall_forall in Hnan. apply Hnan.
    by eapply list_elem_of_lookup_2.
  - apply scoreAll_inputOrder.
Qed.

Lemma sorted_elem_of_scoreAll search :
  search ∈ Array_sort compareSearches
             (scoreAll store query (filteredMemoryVectors store filter)) →
  ∃ memoryVector,
    filteredMemoryVectors store filter !! search_index search = Some memoryVector ∧
    search_similarity search = scoreOf memoryVector.
Proof.
  rewrite Array_sort_Permutation. intros Hs.
  apply list_elem_of_lookup in Hs as [i Hi].
  apply scoreAll_lookup in Hi as (v & Hv & ->). eauto.
Qed.

Lemma searches_elem_of (k : Z) search :
  search ∈ searches store query k filter →
  ∃ memoryVector,
    filteredMemoryVectors store filter !! search_index search = Some memoryVector ∧
    search_similarity search = scoreOf memoryVector.
Proof.
  unfold searches, Array_slice_from0. intros Hs.
  apply sorted_elem_of_scoreAll. by eapply subseteq_take.
Qed.

(** The record a search entry points at. The index is always in range
    ([searches_elem_of]); the fallback is never taken. *)
Definition resultOf (search : Search) : Document * number :=
  (from_option documentOf {| pageContent := ""; metadata := ∅ |}
     (filteredMemoryVectors store filter !! search_index search),
   search_similarity search).

Lemma similaritySearchVectorWithScore_Ok (k : Z) :
  similaritySearchVectorWithScore store query k filter =
  Ok (resultOf <$> searches store query k filter).
Proof.
  unfold similaritySearchVectorWithScore. apply mapM_Ok.
  intros s Hs. apply searches_elem_of in Hs as (v & Hv & Hsim).
  unfold resultOf. by rewrite Hv.
Qed.

Lemma resultOf_scoreAll :
  resultOf <$> scoreAll store query (filteredMemoryVectors store filter) =
  scored <$> filteredMemoryVectors store filter.
Proof.
  apply list_eq. intros i. rewrite !list_lookup_fmap.
  destruct (scoreAll _ _ _ !! i) as [s|] eqn:E.
  - apply scoreAll_lookup in E as (v & Hv & ->).
    rewrite Hv. simpl. unfold resultOf. simpl. by rewrite Hv.
  - destruct (filteredMemoryVectors store filter !! i) as [v|] eqn:Hv; [|done].
    apply lookup_ge_None in E. rewrite scoreAll_length in E.
    apply lookup_lt_Some in Hv. lia.
Qed.

Lemma searches_length (k : Z) :
  (0 ≤ k)%Z →
  length (searches store query k filter) =
  Z.to_nat k `min` length (filteredMemoryVectors store filter).
Proof.
  intros Hk. unfold searches. rewrite Array_slice_from0_take by done.
  by rewrite length_take, Array_sort_length, scoreAll_length.
Qed.

End SearchFacts.

(* ===================================================================== *)
(** ** Stores used in the examples *)
(* ===================================================================== *)

Definition vec2 (x y : Z) : list number := [Number.of_Z x; Number.of_Z y].

Definition record (name : string) (embedding : list number) : MemoryVector :=
  {| content := name; embedding := embedding; vectorMetadata := ∅ |}.

(** Three records under the default cosine. Against the query [(1, 0)] they
    score [0.7071067811865475], [NaN] (a zero vector: [0 / 0]) and [1]. *)
Definition zeroVectorStore : MemoryVectorStore :=
  {| memoryVectors := [record "a" (vec2 1 1); record "b" (vec2 0 0);
                       record "c" (vec2 1 0)];
     similarity := cosine |}.

(** Seven records under the default cosine, scoring
    [NaN, NaN, 0, NaN, 0.707.., 1, 0.707..] against the query [(1, 0)]. *)
Definition sevenStore : MemoryVectorStore :=
  {| memoryVectors := [record "a" (vec2 0 0); record "b" (vec2 0 0);
                       record "c" (vec2 0 1); record "d" (vec2 0 0);
                       record "e" (vec2 1 1); record "f" (vec2 1 0);
                       record "g" (vec2 1 1)];
     similarity := cosine |}.

(** A plugged-in similarity: the dot product. *)
Definition dotProduct (a b : list number) : number :=
  foldr (λ '(x, y) acc, Number.add (Number.mul x y) acc) (Number.of_Z 0) (zip a b).

(** Three records that score [0.9], [0.95] and [0.95] against the query
    [(1)] under the dot product. *)
Definition tieStore : MemoryVectorStore :=
  {| memoryVectors := [record "first" [Number.ratio 9 10];
                       record "second" [Number.ratio 95 100];
                       record "third" [Number.ratio 95 100]];
     similarity := dotProduct |}.

(** Scores in non-increasing order: every score is [>=] every later one. *)
Definition nonIncreasing (scores : list number) : Prop :=
  StronglySorted (λ x y, Number.ge x y = true) scores.

(** No record that passes the filter scores [NaN] against the query. *)
Definition scoresNotNaN (store : MemoryVectorStore) (query : list number)
    (filter : FilterType) : Prop :=
  Forall (λ v, Number.isNaN (scoreOf store query v) = false)
    (filteredMemoryVectors store filter).

(* ===================================================================== *)
(** ** Claims about the similarity search *)
(* ===================================================================== *)

Lemma before_ge (a b : Search) :
  notNaN a → notNaN b →
  before compareSearches search_index a b →
  Number.ge (search_similarity a) (search_similarity b) = true.
Proof.
  unfold notNaN. intros Ha Hb [H|[H _]]; rewrite precedes_compareSearches in H.
  - by apply gt_ge.
  - by apply not_gt_ge.
Qed.

Lemma before_tie (a b : Search) :
  before compareSearches search_index a b →
  Number.eq (search_similarity a) (search_similarity b) = true →
  search_index a < search_index b.
Proof.
  intros [H|[_ H]] Heq; [|done].
  rewrite precedes_compareSearches in H. apply eq_not_gt in Heq. congruence.
Qed.

Lemma searches_prefix store query k filter :
  ∃ n, searches store query k filter =
       take n (Array_sort compareSearches
                 (scoreAll store query (filteredMemoryVectors store filter))).
Proof. unfold searches, Array_slice_from0. eauto. Qed.

Lemma searches_before store query k filter :
  scoresNotNaN store query filter →
  StronglySorted (before compareSearches search_index) (searches store query k filter).
Proof.
  intros Hnan. destruct (searches_prefix store query k filter) as [n ->].
  apply StronglySorted_take. by apply searches_sorted_before.
Qed.

Lemma searches_notNaN store query k filter search :
  scoresNotNaN store query filter →
  search ∈ searches store query k filter → notNaN search.
Proof.
  intros Hnan Hs. apply searches_elem_of in Hs as (v & Hv & Hsim).
  unfold notNaN. rewrite Hsim. unfold scoresNotNaN in Hnan.
  rewrite Forall_forall in Hnan. apply Hnan. by eapply list_elem_of_lookup_2.
Qed.

(** C1 (amended): for every store, query embedding, filter and [k >= 0] the
    search returns (it never throws), with at most [min(k, number of records
    passing the filter)] results; and provided no record passing the filter
    scores [NaN], the scores of the results are in non-increasing order. *)
Theorem search_at_most_k_sorted store query k filter :
  (0 ≤ k)%Z →
  ∃ results,
    similaritySearchVectorWithScore store query k filter = Ok results ∧
    (Z.of_nat (length results)
       ≤ Z.min k (Z.of_nat (length (filteredMemoryVectors store filter))))%Z ∧
    (scoresNotNaN store query filter → nonIncreasing (results.*2)).
Proof.
  intros Hk. eexists. split; [apply similaritySearchVectorWithScore_Ok|]. split.
  - rewrite length_fmap, searches_length by done. lia.
  - intros Hnan. unfold nonIncreasing.
    rewrite <-list_fmap_compose.
    apply (StronglySorted_fmap _
             (λ a b, Number.ge (search_similarity a) (search_similarity b) = true)).
    + done.
    + eapply StronglySorted_impl; [|by apply searches_before].
      intros a b Ha Hb Hab.
      apply before_ge; [by eapply searches_notNaN..|done].
Qed.

(** Closes [Forall P l] on a closed list by evaluating [P] at each element. *)
Ltac closed_Forall :=
  repeat (apply Forall_cons_2; [vm_compute; reflexivity|]); apply Forall_nil_2.

Lemma search_at_most_k_sorted_witness :
  (0 ≤ 2)%Z ∧
  scoresNotNaN tieStore [Number.of_Z 1] None ∧
  ∃ results,
    similaritySearchVectorWithScore tieStore [Number.of_Z 1] 2 None = Ok results ∧
    (Z.of_nat (length results)
       ≤ Z.min 2 (Z.of_nat (length (filteredMemoryVectors tieStore None))))%Z ∧
    nonIncreasing (results.*2).
Proof.
  assert (0 ≤ 2)%Z as Hk by lia.
  assert (scoresNotNaN tieStore [Number.of_Z 1] None) as Hnan
    by closed_Forall.
  destruct (search_at_most_k_sorted tieStore [Number.of_Z 1] 2 None Hk)
    as (results & Hresults & Hlength & Hsorted).
  split; [exact Hk|]. split; [exact Hnan|].
  exists results. split; [exact Hresults|]. split; [exact Hlength|].
  exact (Hsorted Hnan).
Defined.

(** Two or more scores in non-increasing order are all numbers: [NaN] is
    [>=] nothing and nothing is [>=] it. *)
Lemma nonIncreasing_not_NaN scores :
  nonIncreasing scores → 2 ≤ length scores →
  Forall (λ x, Number.isNaN x = false) scores.
Proof.
  unfold nonIncreasing. intros Hsorted Hlen.
  destruct scores as [|x [|y rest]]; simpl in Hlen; [lia..|].
  apply StronglySorted_cons in Hsorted as [Hx Hsorted].
  assert (Number.isNaN x = false) as Hxn.
  { apply Forall_cons in Hx as [Hxy _]. by apply leb_not_NaN in Hxy as [_ ?]. }
  apply Forall_cons. split; [done|].
  eapply Forall_impl; [exact Hx|]. intros z Hz. simpl in Hz.
  by apply leb_not_NaN in Hz as [? _].
Qed.

(** C1, as stated, fails: with a zero vector in the store the cosine scores
    are [0.707.., NaN, 1]; the sort leaves them in that order, so the third
    result scores strictly more than the first, and with [k = 1] the record
    returned is not the best-scoring one. No arrangement of these three
    results would be in non-increasing order. *)
Lemma search_with_NaN_score_not_sorted :
  let query := vec2 1 0 in
  let a := record "a" (vec2 1 1) in
  let b := record "b" (vec2 0 0) in
  let c := record "c" (vec2 1 0) in
  similaritySearchVectorWithScore zeroVectorStore query 3 None =
    Ok [scored zeroVectorStore query a; scored zeroVectorStore query b;
        scored zeroVectorStore query c] ∧
  scoreOf zeroVectorStore query b = Number.NaN ∧
  Number.gt (scoreOf zeroVectorStore query c) (scoreOf zeroVectorStore query a) = true ∧
  (∀ scores,
     scores ≡ₚ [scoreOf zeroVectorStore query a; scoreOf zeroVectorStore query b;
                scoreOf zeroVectorStore query c] →
     ¬ nonIncreasing scores) ∧
  similaritySearchVectorWithScore zeroVectorStore query 1 None =
    Ok [scored zeroVectorStore query a].
Proof.
  cbv zeta. split_and!.
  - by vm_compute.
  - by vm_compute.
  - by vm_compute.
  - intros scores Hperm Hsorted.
    apply nonIncreasing_not_NaN in Hsorted; [|rewrite Hperm; simpl; lia].
    rewrite Hperm in Hsorted.
    apply Forall_cons in Hsorted as [_ Hsorted].
    apply Forall_cons in Hsorted as [Hb _]. by vm_compute in Hb.
  - by vm_compute.
Qed.

Lemma Array_sort_tie3 {A} (comparefn : A → A → Z) e0 e1 e2 :
  (comparefn e1 e0 < 0)%Z → (0 ≤ comparefn e2 e1)%Z → (comparefn e2 e0 < 0)%Z →
  Array_sort comparefn [e0; e1; e2] = [e1; e2; e0].
Proof.
  intros H10 H21 H20.
  apply Z.ltb_lt in H10, H20. apply Z.leb_le in H21.
  assert ((comparefn e2 e1 <? 0)%Z = false) as H21'
    by (apply Z.ltb_ge; by apply Z.leb_le).
  unfold Array_sort, CountAndMakeRun, extendRun.
  rewrite H10, H21. unfold BinaryInsertionSort, insertPivot. cbn.
  rewrite H20. cbn. rewrite H21'. reflexivity.
Qed.

Lemma compareSearches_gt a b :
  Number.gt (search_similarity a) (search_similarity b) = true →
  (compareSearches a b < 0)%Z.
Proof. unfold compareSearches. by intros ->. Qed.

Lemma compareSearches_not_gt a b :
  Number.gt (search_similarity a) (search_similarity b) = false →
  (0 ≤ compareSearches a b)%Z.
Proof. unfold compareSearches. by intros ->. Qed.

(** C2 (amended): provided no record passing the filter scores [NaN], the
    entries of [searches] (the sorted, sliced list the results are read
    from) that have equal scores stand in input order: the earlier one
    carries the smaller input index. In particular, for a store of three
    records scored [a, b, b] with [a < b] (such as [0.9, 0.95, 0.95]) and
    [k = 1], the one result is the record at index 1. *)
Theorem search_ties_keep_input_order store query k filter :
  scoresNotNaN store query filter →
  similaritySearchVectorWithScore store query k filter =
    Ok (resultOf store filter <$> searches store query k filter) ∧
  (∀ i j a b,
     i < j →
     searches store query k filter !! i = Some a →
     searches store query k filter !! j = Some b →
     Number.eq (search_similarity a) (search_similarity b) = true →
     search_index a < search_index b) ∧
  (∀ v0 v1 v2,
     memoryVectors store = [v0; v1; v2] →
     Number.lt (scoreOf store query v0) (scoreOf store query v1) = true →
     scoreOf store query v2 = scoreOf store query v1 →
     similaritySearchVectorWithScore store query 1 None =
       Ok [scored store query v1]).
Proof.
  intros Hnan. split; [apply similaritySearchVectorWithScore_Ok|]. split.
  - intros i j a b Hij Ha Hb Heq.
    apply before_tie; [|done].
    eapply StronglySorted_lookup; [by apply searches_before|done..].
  - intros v0 v1 v2 Hmem H01 H21.
    rewrite similaritySearchVectorWithScore_Ok.
    unfold searches, resultOf, filteredMemoryVectors. rewrite Hmem.
    cbn [List.filter filterFunction]. unfold scoreAll. cbn [imap compose].
    fold (scoreOf store query v0) (scoreOf store query v1) (scoreOf store query v2).
    rewrite H21. rewrite Array_sort_tie3.
    + reflexivity.
    + by apply compareSearches_gt.
    + apply compareSearches_not_gt. apply gt_irrefl.
    + by apply compareSearches_gt.
Qed.

Lemma search_ties_keep_input_order_witness :
  let query := [Number.of_Z 1] in
  scoresNotNaN tieStore query None ∧
  (∀ i j a b,
     i < j →
     searches tieStore query 1 None !! i = Some a →
     searches tieStore query 1 None !! j = Some b →
     Number.eq (search_similarity a) (search_similarity b) = true →
     search_index a < search_index b) ∧
  memoryVectors tieStore =
    [record "first" [Number.ratio 9 10]; record "second" [Number.ratio 95 100];
     record "third" [Number.ratio 95 100]] ∧
  Number.lt (scoreOf tieStore query (record "first" [Number.ratio 9 10]))
            (scoreOf tieStore query (record "second" [Number.ratio 95 100])) = true ∧
  scoreOf tieStore query (record "third" [Number.ratio 95 100]) =
    scoreOf tieStore query (record "second" [Number.ratio 95 100]) ∧
  similaritySearchVectorWithScore tieStore query 1 None =
    Ok [scored tieStore query (record "second" [Number.ratio 95 100])].
Proof.
  cbv zeta.
  assert (scoresNotNaN tieStore [Number.of_Z 1] None) as Hnan
    by closed_Forall.
  destruct (search_ties_keep_input_order tieStore [Number.of_Z 1] 1 None Hnan)
    as (_ & Hties & Hscenario).
  split; [exact Hnan|]. split; [exact Hties|].
  split; [reflexivity|]. split; [by vm_compute|]. split; [reflexivity|].
  apply (Hscenario (record "first" [Number.ratio 9 10])
           (record "second" [Number.ratio 95 100])
           (record "third" [Number.ratio 95 100]));
    [reflexivity|by vm_compute|reflexivity].
Defined.

(** C2, as stated, fails: with scores [NaN, NaN, 0, NaN, 0.707.., 1, 0.707..]
    the binary search of the sort is misled by the [NaN] entries, and the
    record at input index 6 comes out before the record at input index 4
    although the two score the same. *)
Lemma search_with_NaN_score_reorders_ties :
  let query := vec2 1 0 in
  let score := scored sevenStore query in
  let a := record "a" (vec2 0 0) in
  let b := record "b" (vec2 0 0) in
  let c := record "c" (vec2 0 1) in
  let d := record "d" (vec2 0 0) in
  let e := record "e" (vec2 1 1) in
  let f := record "f" (vec2 1 0) in
  let g := record "g" (vec2 1 1) in
  memoryVectors sevenStore = [a; b; c; d; e; f; g] ∧
  Number.eq (scoreOf sevenStore query e) (scoreOf sevenStore query g) = true ∧
  search_index <$> searches sevenStore query 7 None = [0; 1; 5; 6; 2; 3; 4] ∧
  similaritySearchVectorWithScore sevenStore query 7 None =
    Ok [score a; score b; score f; score g; score c; score d; score e].
Proof. cbv zeta. split_and!; by vm_compute. Qed.

(** The claim's words, to hold the search against. A record passes the
    filter when the filter is absent or accepts the document made of the
    record's content and metadata; the records passing the filter are those
    records of the store, in the store's order; and what the claim expects
    for a record is that document paired with the similarity of the query to
    the record's embedding. None of the three is taken from the search. *)
Definition passesFilter (accept : FilterType) (v : MemoryVector) : Prop :=
  match accept with
  | None => True
  | Some accept =>
      accept {| pageContent := content v; metadata := vectorMetadata v |} = true
  end.

#[global] Instance passesFilter_dec accept v : Decision (passesFilter accept v).
Proof. destruct accept as [accept|]; simpl; apply _. Defined.

Definition recordsPassing (store : MemoryVectorStore) (accept : FilterType)
  : list MemoryVector :=
  base.filter (passesFilter accept) (memoryVectors store).

Definition expectedResult (store : MemoryVectorStore) (query : list number)
    (v : MemoryVector) : Document * number :=
  ({| pageContent := content v; metadata := vectorMetadata v |},
   similarity store query (embedding v)).

Lemma recordsPassing_filteredMemoryVectors store accept :
  filteredMemoryVectors store accept = recordsPassing store accept.
Proof.
  unfold filteredMemoryVectors, recordsPassing.
  induction (memoryVectors store) as [|v l IH]; [done|].
  cbn [List.filter]. rewrite filter_cons.
  destruct accept as [accept|]; simpl in *.
  - destruct (decide (accept _ = true)) as [Hyes|Hno].
    + unfold documentOf. rewrite Hyes. by f_equal.
    + unfold documentOf. apply not_true_is_false in Hno. by rewrite Hno.
  - by f_equal.
Qed.

(** C9: if [k] is 0 or the store is empty the search returns the empty
    sequence; if [k] is at least the number of records passing the filter it
    returns all of them and nothing else, each as its document paired with
    its score: the results are a rearrangement (the ranking) of the expected
    results of the records passing the filter, as many as there are such
    records. *)
Theorem search_empty_or_everything store query k filter :
  ((k = 0%Z ∨ memoryVectors store = []) →
   similaritySearchVectorWithScore store query k filter = Ok []) ∧
  ((Z.of_nat (length (recordsPassing store filter)) ≤ k)%Z →
   ∃ results,
     similaritySearchVectorWithScore store query k filter = Ok results ∧
     results ≡ₚ expectedResult store query <$> recordsPassing store filter ∧
     length results = length (recordsPassing store filter)).
Proof.
  split.
  - intros Hempty. rewrite similaritySearchVectorWithScore_Ok.
    destruct Hempty as [->|Hmem].
    + unfold searches. by rewrite Array_slice_from0_take.
    + unfold searches, filteredMemoryVectors. rewrite Hmem. simpl.
      unfold Array_slice_from0. by destruct (Z.to_nat _).
  - intros Hk. rewrite <-recordsPassing_filteredMemoryVectors in *.
    assert (resultOf store filter <$> searches store query k filter ≡ₚ
            expectedResult store query <$> filteredMemoryVectors store filter)
      as Hperm.
    { unfold searches. rewrite Array_slice_from0_take by lia.
      rewrite take_ge by (rewrite Array_sort_length, scoreAll_length; lia).
      rewrite Array_sort_Permutation. by rewrite resultOf_scoreAll. }
    eexists. split; [apply similaritySearchVectorWithScore_Ok|].
    split; [exact Hperm|]. by rewrite Hperm, length_fmap.
Qed.

Lemma search_empty_or_everything_witness :
  let query := [Number.of_Z 1] in
  let notFirst : FilterType :=
    Some (λ document, negb (String.eqb (pageContent document) "first")) in
  (0 = 0 ∨ memoryVectors tieStore = [])%Z ∧
  similaritySearchVectorWithScore tieStore query 0 notFirst = Ok [] ∧
  recordsPassing tieStore notFirst =
    [record "second" [Number.ratio 95 100]; record "third" [Number.ratio 95 100]] ∧
  (Z.of_nat (length (recordsPassing tieStore notFirst)) ≤ 5)%Z ∧
  ∃ results,
    similaritySearchVectorWithScore tieStore query 5 notFirst = Ok results ∧
    results ≡ₚ expectedResult tieStore query <$> recordsPassing tieStore notFirst ∧
    length results = length (recordsPassing tieStore notFirst).
Proof.
  cbv zeta.
  set (notFirst :=
    Some (λ document, negb (String.eqb (pageContent document) "first"))
      : FilterType).
  assert (0 = 0 ∨ memoryVectors tieStore = [])%Z as Hzero by (by left).
  assert (recordsPassing tieStore notFirst =
          [record "second" [Number.ratio 95 100];
           record "third" [Number.ratio 95 100]]) as Hpassing
    by (vm_compute; reflexivity).
  assert (Z.of_nat (length (recordsPassing tieStore notFirst)) ≤ 5)%Z as Hall
    by (rewrite Hpassing; simpl; lia).
  split; [exact Hzero|].
  split; [exact (proj1 (search_empty_or_everything tieStore [Number.of_Z 1] 0
                          notFirst) Hzero)|].
  split; [exact Hpassing|]. split; [exact Hall|].
  exact (proj2 (search_empty_or_everything tieStore [Number.of_Z 1] 5 notFirst)
           Hall).
Defined.

(* ===================================================================== *)
(** ** Facts about the semantic cache *)
(* ===================================================================== *)

(** A generation that carries only its text, as the tests pass them. *)
Definition textGeneration (text : string) : Generation :=
  {| text := text; generationInfo := None |}.

(** The calls a client can make on the cache, and the states they lead to
    from a new cache. A call that throws still leaves its state behind. *)
Inductive Call : Type :=
| CallLookup (prompt llmKey : string)
| CallUpdate (prompt llmKey : string) (returnVal : list Generation)
| CallClear (llmKey : string).

Definition keyOf (call : Call) : string :=
  match call with
  | CallLookup _ llmKey | CallUpdate _ llmKey _ | CallClear llmKey => llmKey
  end.

Definition isUpdate (call : Call) : bool :=
  match call with CallUpdate _ _ _ => true | _ => false end.

Definition isLookupOrUpdate (call : Call) : bool :=
  match call with CallClear _ => false | _ => true end.

Definition isClear (call : Call) : bool :=
  match call with CallClear _ => true | _ => false end.

(** Some call selected by [creates], made for the index name [name], has
    occurred and no [clear] for that index name has occurred after it. *)
Definition sinceLastClear (creates : Call → bool) (calls : list Call)
    (name : string) : Prop :=
  ∃ earlier call later,
    calls = earlier ++ call :: later ∧
    creates call = true ∧ indexName (keyOf call) = name ∧
    ∀ c, c ∈ later → isClear c = true → indexName (keyOf c) ≠ name.

Section CacheFacts.
Context `{JSONObject} `{Embeddings}.

Definition perform (this : MemorySemanticVectorStore) (call : Call)
  : MemorySemanticVectorStore :=
  match call with
  | CallLookup prompt llmKey => (lookup prompt llmKey this).1
  | CallUpdate prompt llmKey returnVal => (update prompt llmKey returnVal this).1
  | CallClear llmKey => clear llmKey this
  end.

Definition performAll (calls : list Call) (this : MemorySemanticVectorStore)
  : MemorySemanticVectorStore :=
  foldl perform this calls.

(** The store [getLlmCache] hands to the retriever. *)
Definition namespaceStore (llmKey : string) (this : MemorySemanticVectorStore)
  : MemoryVectorStore :=
  default (fromExistingIndex None) (cacheDict this !! indexName llmKey).

(** The documents [lookup] retrieves. *)
Definition matched (prompt llmKey : string) (this : MemorySemanticVectorStore)
  : result (list Document) :=
  getRelevantDocuments (getLlmCache llmKey this).2 prompt.

(** The record [update] adds. *)
Definition cachedRecord (prompt llmKey : string) (returnVal : list Generation)
    (embedding : list number) : MemoryVector :=
  {| content := prompt;
     embedding := embedding;
     vectorMetadata :=
       {[ "llm_string" := JString llmKey;
          "prompt" := JString prompt;
          "return_val" := JString (dumpGenerationsToJson returnVal) ]} |}.

Lemma getLlmCache_cacheDict llmKey this :
  cacheDict (getLlmCache llmKey this).1 =
  <[indexName llmKey := namespaceStore llmKey this]> (cacheDict this).
Proof.
  unfold getLlmCache, namespaceStore.
  destruct (cacheDict this !! indexName llmKey) as [store|] eqn:E; simpl.
  - by rewrite insert_id.
  - done.
Qed.

Lemma getLlmCache_fields llmKey this :
  inherited (getLlmCache llmKey this).1 = inherited this ∧
  scoreThreshold (getLlmCache llmKey this).1 = scoreThreshold this.
Proof.
  unfold getLlmCache. by destruct (cacheDict this !! indexName llmKey).
Qed.

Lemma getLlmCache_retriever llmKey this :
  (getLlmCache llmKey this).2 =
  fromVectorStore (namespaceStore llmKey this) (scoreThreshold this) 1.
Proof.
  unfold getLlmCache, namespaceStore.
  by destruct (cacheDict this !! indexName llmKey).
Qed.

Lemma lookup_state prompt llmKey this :
  (lookup prompt llmKey this).1 = (getLlmCache llmKey this).1.
Proof. unfold lookup. by destruct (getLlmCache llmKey this). Qed.

Lemma lookup_result prompt llmKey this :
  (lookup prompt llmKey this).2 =
  (results ← matched prompt llmKey this;
   generations ← concatGenerations [] results;
   Ok (if decide (0 < length generations) then Some generations else None)).
Proof. unfold lookup, matched. by destruct (getLlmCache llmKey this). Qed.

Lemma clear_cacheDict llmKey this :
  cacheDict (clear llmKey this) = delete (indexName llmKey) (cacheDict this).
Proof.
  unfold clear. destruct (cacheDict this !! indexName llmKey) eqn:E; simpl.
  - by rewrite delete_insert_eq.
  - by rewrite delete_id.
Qed.

Lemma set_cacheDict_same this :
  set_cacheDict (cacheDict this) this = this.
Proof. by destruct this. Qed.

Lemma search_empty_store similarity query k filter :
  similaritySearchVectorWithScore
    {| memoryVectors := []; similarity := similarity |} query k filter = Ok [].
Proof.
  rewrite similaritySearchVectorWithScore_Ok.
  unfold searches, filteredMemoryVectors, Array_slice_from0. simpl.
  by destruct (Z.to_nat _).
Qed.

Lemma matched_empty prompt llmKey this :
  memoryVectors (namespaceStore llmKey this) = [] →
  matched prompt llmKey this = Ok [].
Proof.
  intros Hempty. unfold matched. rewrite getLlmCache_retriever.
  unfold getRelevantDocuments, similaritySearchWithScore. simpl.
  destruct (namespaceStore llmKey this) as [vectors sim]. simpl in Hempty.
  subst vectors. by rewrite search_empty_store.
Qed.

End CacheFacts.

(* ===================================================================== *)
(** ** Claims about clear *)
(* ===================================================================== *)

(** C10: [clear(keyA)] changes only the entry of [keyA]'s index name in the
    namespace mapping: the entry under every other index name, in particular
    that of a key whose index name differs, is the same store with the same
    records, and the other fields of the cache are untouched; when [keyA]'s
    namespace is absent the whole state is unchanged. *)
Theorem clear_changes_only_its_namespace llmKeyA this :
  (∀ name, name ≠ indexName llmKeyA →
     cacheDict (clear llmKeyA this) !! name = cacheDict this !! name) ∧
  (∀ llmKeyB, indexName llmKeyA ≠ indexName llmKeyB →
     cacheDict (clear llmKeyA this) !! indexName llmKeyB =
       cacheDict this !! indexName llmKeyB) ∧
  inherited (clear llmKeyA this) = inherited this ∧
  scoreThreshold (clear llmKeyA this) = scoreThreshold this ∧
  (cacheDict this !! indexName llmKeyA = None → clear llmKeyA this = this).
Proof.
  split_and!.
  - intros name Hname. rewrite clear_cacheDict. by rewrite lookup_delete_ne.
  - intros llmKeyB Hname. rewrite clear_cacheDict. by rewrite lookup_delete_ne.
  - unfold clear. by destruct (cacheDict this !! indexName llmKeyA).
  - unfold clear. by destruct (cacheDict this !! indexName llmKeyA).
  - intros Habsent. unfold clear. by rewrite Habsent.
Qed.

(** A new cache with the default threshold, and the cache after two updates
    under two keys, run with the example [JSON] object and provider. *)
Definition newCache : MemorySemanticVectorStore :=
  MemorySemanticVectorStore_new None None.

Definition twoNamespaces : MemorySemanticVectorStore :=
  @performAll JSONFragment.object lengthEmbeddings
    [CallUpdate "Who killed John F. Kennedy?" "llm:key"
       [textGeneration "Lee Harvey Oswald"];
     CallUpdate "prompt test 1" "other:key" [textGeneration "generation test 1"]]
    newCache.

Lemma clear_changes_only_its_namespace_witness :
  indexName "llm:key" ≠ indexName "other:key" ∧
  cacheDict (clear "llm:key" twoNamespaces) !! indexName "other:key" =
    cacheDict twoNamespaces !! indexName "other:key" ∧
  cacheDict newCache !! indexName "llm:key" = None ∧
  clear "llm:key" newCache = newCache.
Proof.
  assert (indexName "llm:key" ≠ indexName "other:key") as Hnames
    by (vm_compute; discriminate).
  assert (cacheDict newCache !! indexName "llm:key" = None) as Habsent
    by reflexivity.
  destruct (clear_changes_only_its_namespace "llm:key" twoNamespaces)
    as (_ & Hother & _).
  destruct (clear_changes_only_its_namespace "llm:key" newCache)
    as (_ & _ & _ & _ & Hnoop).
  split; [exact Hnames|]. split; [exact (Hother "other:key" Hnames)|].
  split; [exact Habsent|]. exact (Hnoop Habsent).
Defined.

(** C6: [clear(key)] empties the key's namespace store and removes the
    entry from the cache mapping, so a lookup that follows, with any prompt,
    returns [null], whatever records the namespace held before. *)
Theorem clear_then_lookup_is_null `{JSONObject} `{Embeddings} llmKey prompt this :
  (∀ store, cacheDict this !! indexName llmKey = Some store →
     memoryVectors (dropIndex store) = [] ∧
     clear llmKey this =
       set_cacheDict
         (delete (indexName llmKey)
            (<[indexName llmKey := dropIndex store]> (cacheDict this))) this) ∧
  cacheDict (clear llmKey this) !! indexName llmKey = None ∧
  (lookup prompt llmKey (clear llmKey this)).2 = Ok None.
Proof.
  assert (cacheDict (clear llmKey this) !! indexName llmKey = None) as Hgone
    by (rewrite clear_cacheDict; apply lookup_delete_eq).
  split_and!.
  - intros store Hstore. split; [done|]. unfold clear. by rewrite Hstore.
  - exact Hgone.
  - rewrite lookup_result, matched_empty; [done|].
    unfold namespaceStore. by rewrite Hgone.
Qed.

Lemma clear_then_lookup_is_null_witness :
  let prompt := "Who killed John F. Kennedy?" in
  length <$> (memoryVectors <$> cacheDict twoNamespaces !! indexName "llm:key") = Some 1 ∧
  (@lookup JSONFragment.object lengthEmbeddings prompt "llm:key" twoNamespaces).2 =
    Ok (Some [GenerationChunk "Lee Harvey Oswald"]) ∧
  cacheDict (clear "llm:key" twoNamespaces) !! indexName "llm:key" = None ∧
  (@lookup JSONFragment.object lengthEmbeddings prompt "llm:key"
     (clear "llm:key" twoNamespaces)).2 = Ok None.
Proof.
  cbv zeta.
  destruct (@clear_then_lookup_is_null JSONFragment.object lengthEmbeddings
              "llm:key" "Who killed John F. Kennedy?" twoNamespaces)
    as (_ & Hgone & Hnull).
  split; [by vm_compute|]. split; [by vm_compute|].
  split; [exact Hgone|exact Hnull].
Defined.

(* ===================================================================== *)
(** ** Claims about update *)
(* ===================================================================== *)

Section UpdateFacts.
Context `{JSONObject} `{Embeddings}.

Lemma addDocuments_one store document embedding :
  embedDocuments [pageContent document] = [embedding] →
  addDocuments store [document] =
    Ok {| memoryVectors :=
            memoryVectors store ++
              [{| content := pageContent document;
                  embedding := embedding;
                  vectorMetadata := metadata document |}];
          similarity := similarity store |}.
Proof. intros Hembed. unfold addDocuments, addVectors. simpl. by rewrite Hembed. Qed.

Lemma update_one prompt llmKey returnVal this embedding :
  embedDocuments [prompt] = [embedding] →
  update prompt llmKey returnVal this =
    (set_cacheDict
       (<[indexName llmKey :=
            {| memoryVectors :=
                 memoryVectors (namespaceStore llmKey this) ++
                   [cachedRecord prompt llmKey returnVal embedding];
               similarity := similarity (namespaceStore llmKey this) |}]>
          (cacheDict this)) this,
     Ok ()).
Proof.
  intros Hembed. unfold update.
  pose proof (getLlmCache_cacheDict llmKey this) as Hdict.
  pose proof (getLlmCache_retriever llmKey this) as Hretriever.
  pose proof (getLlmCache_fields llmKey this) as [Hinherited Hthreshold].
  destruct (getLlmCache llmKey this) as [this' llmCache]. simpl in *.
  subst llmCache. unfold retriever_addDocuments. simpl.
  erewrite addDocuments_one by exact Hembed. simpl.
  f_equal. rewrite Hdict, insert_insert_eq.
  unfold set_cacheDict. simpl. by rewrite Hinherited, Hthreshold.
Qed.

End UpdateFacts.

(** C8: [update] appends exactly one record to the store of the key's
    namespace (created empty when absent) and returns; the record's content
    is the prompt, its embedding the one the provider computed for the
    prompt, and its metadata holds the namespace key, the prompt and the
    serialization of the value. The serialization is the JSON text of the
    array of [{text}] objects: it depends on the texts of the results only,
    every other field is dropped. The provider is taken to answer one
    embedding for the one text it is given. *)
Theorem update_appends_one_record `{JSONObject} `{Embeddings}
    prompt llmKey returnVal this embedding :
  embedDocuments [prompt] = [embedding] →
  let previous := from_option memoryVectors [] (cacheDict this !! indexName llmKey) in
  let after := (update prompt llmKey returnVal this).1 in
  let added := cachedRecord prompt llmKey returnVal embedding in
  (update prompt llmKey returnVal this).2 = Ok () ∧
  memoryVectors <$> cacheDict after !! indexName llmKey = Some (previous ++ [added]) ∧
  content added = prompt ∧
  vectorMetadata added !! "llm_string" = Some (JString llmKey) ∧
  vectorMetadata added !! "prompt" = Some (JString prompt) ∧
  vectorMetadata added !! "return_val" =
    Some (JString (JSON_stringify
            (JArray ((λ generation, JObject [("text", JString (text generation))])
                       <$> returnVal)))) ∧
  (∀ returnVal', text <$> returnVal' = text <$> returnVal →
     dumpGenerationsToJson returnVal' = dumpGenerationsToJson returnVal).
Proof.
  intros Hembed previous after added. subst after.
  rewrite (update_one _ _ _ _ _ Hembed). simpl. split_and!; try done.
  - rewrite lookup_insert_eq. simpl. do 2 f_equal.
    unfold namespaceStore, previous.
    by destruct (cacheDict this !! indexName llmKey).
  - intros returnVal' Htexts. unfold dumpGenerationsToJson. do 2 f_equal.
    rewrite !(list_fmap_compose text (λ t, JObject [("text", JString t)])).
    by rewrite Htexts.
Qed.

Lemma update_appends_one_record_witness :
  let prompt := "Who killed John F. Kennedy?" in
  let returnVal :=
    [{| text := "Lee Harvey Oswald";
        generationInfo := Some (JObject [("finish_reason", JString "stop")]) |}] in
  let embedding := [Number.of_Z 27; Number.of_Z 1] in
  @embedDocuments lengthEmbeddings [prompt] = [embedding] ∧
  (@update JSONFragment.object lengthEmbeddings prompt "llm:key" returnVal newCache).2
    = Ok () ∧
  memoryVectors <$>
    cacheDict (@update JSONFragment.object lengthEmbeddings prompt "llm:key"
                 returnVal newCache).1 !! indexName "llm:key" =
    Some [@cachedRecord JSONFragment.object prompt "llm:key" returnVal embedding] ∧
  @dumpGenerationsToJson JSONFragment.object [textGeneration "Lee Harvey Oswald"] =
    @dumpGenerationsToJson JSONFragment.object returnVal.
Proof.
  cbv zeta.
  assert (@embedDocuments lengthEmbeddings ["Who killed John F. Kennedy?"] =
            [[Number.of_Z 27; Number.of_Z 1]]) as Hembed by reflexivity.
  destruct (@update_appends_one_record JSONFragment.object lengthEmbeddings
              "Who killed John F. Kennedy?" "llm:key"
              [{| text := "Lee Harvey Oswald";
                  generationInfo := Some (JObject [("finish_reason", JString "stop")]) |}]
              newCache _ Hembed)
    as (Hok & Hrecords & _ & _ & _ & _ & Hdropped).
  split; [exact Hembed|]. split; [exact Hok|]. split; [exact Hrecords|].
  by apply Hdropped.
Defined.

(* ===================================================================== *)
(** ** Claims about lookup *)
(* ===================================================================== *)

(** The decoded element has a [text] field that is a string. *)
Definition hasStringText (generationDict : JSValue) : Prop :=
  ∃ properties text,
    generationDict = JObject properties ∧
    getOwnProperty "text" properties = Some (JString text).

(** The payload fails to parse as JSON, or it parses to an array one of
    whose elements lacks a string [text] field. *)
Definition malformedPayload `{JSONObject} (generationsJson : string) : Prop :=
  JSON_parse generationsJson = None ∨
  ∃ results,
    JSON_parse generationsJson = Some (JArray results) ∧
    ∃ generationDict, generationDict ∈ results ∧ ¬ hasStringText generationDict.

Lemma mapM_Throw {A B} (f : A → result B) (l : list A) x :
  x ∈ l → (∃ e, f x = Throw e) → ∃ e, mapM f l = Throw e.
Proof.
  induction l as [|y l IH]; intros Hx Hfx; [by apply elem_of_nil in Hx|].
  simpl. destruct (f y) as [b|e] eqn:Hy; [|by eexists].
  simpl. apply elem_of_cons in Hx as [->|Hx].
  - destruct Hfx as [e He]. congruence.
  - destruct (IH Hx Hfx) as [e ->]. by eexists.
Qed.

Section LookupFacts.
Context `{JSONObject} `{Embeddings}.

Lemma loadGenerationsFromJson_cases generationsJson :
  (∃ generations, loadGenerationsFromJson generationsJson = Ok generations) ∨
  loadGenerationsFromJson generationsJson =
    Throw (Error (decodeErrorMessage generationsJson)).
Proof.
  unfold loadGenerationsFromJson.
  destruct (decodeGenerations generationsJson); simpl; eauto.
Qed.

Lemma loadGenerationsFromJson_malformed generationsJson :
  malformedPayload generationsJson →
  loadGenerationsFromJson generationsJson =
    Throw (Error (decodeErrorMessage generationsJson)).
Proof.
  intros Hbad. unfold loadGenerationsFromJson.
  assert (∃ e, decodeGenerations generationsJson = Throw e) as [e ->];
    [|done].
  unfold decodeGenerations.
  destruct Hbad as [->|(results & -> & dict & Hin & Hbad)]; [by eexists|].
  eapply mapM_Throw; [exact Hin|].
  destruct dict as [| | | | |elements|properties]; simpl; try by eexists.
  destruct (getOwnProperty "text" properties) as [[| | | |text| |]|] eqn:Hprop;
    simpl; try by eexists.
  destruct Hbad. by exists properties, text.
Qed.


Lemma matched_at_most_one prompt llmKey this results :
  matched prompt llmKey this = Ok results → length results ≤ 1.
Proof.
  unfold matched. rewrite getLlmCache_retriever.
  unfold getRelevantDocuments, similaritySearchWithScore. simpl.
  rewrite similaritySearchVectorWithScore_Ok. simpl. intros [= <-].
  rewrite length_fmap.
  etrans; [apply List.filter_length_le|].
  rewrite length_fmap, searches_length by lia. lia.
Qed.

End LookupFacts.

(** C4: when a record matched by a lookup carries a payload that fails to
    parse as JSON, or that parses to an array with an element lacking a
    string [text] field, [lookup] throws the decoding error whose message
    ends with that raw payload; it does not return [null] or any list. *)
Theorem lookup_fails_on_malformed_payload `{JSONObject} `{Embeddings}
    prompt llmKey this results document :
  matched prompt llmKey this = Ok results →
  document ∈ results →
  malformedPayload (return_val document) →
  (lookup prompt llmKey this).2 =
    Throw (Error ("Could not decode json to list of generations: "
                    +:+ return_val document)).
Proof.
  intros Hmatched Hin Hbad.
  pose proof (matched_at_most_one _ _ _ _ Hmatched) as Hlen.
  destruct results as [|document' [|? ?]]; simpl in Hlen; [|clear Hlen|lia].
  - by apply elem_of_nil in Hin.
  - apply list_elem_of_singleton in Hin as <-.
    rewrite lookup_result, Hmatched. simpl.
    by rewrite (loadGenerationsFromJson_malformed _ Hbad).
Qed.


(** A cache whose one record carries the payload [[{}]]: what
    [JSON.stringify] writes for a result whose [text] is [undefined]. *)
Definition corruptedRecord : MemoryVector :=
  {| content := "prompt test 1";
     embedding := [Number.of_Z 13; Number.of_Z 1];
     vectorMetadata := {[ "return_val" := JString "[{}]" ]} |}.

Definition corruptedCache : MemorySemanticVectorStore :=
  set_cacheDict
    {[ indexName "llm:key" :=
         {| memoryVectors := [corruptedRecord]; similarity := cosine |} ]}
    newCache.

Lemma lookup_fails_on_malformed_payload_witness :
  let document := documentOf corruptedRecord in
  @matched lengthEmbeddings "prompt test 1" "llm:key" corruptedCache = Ok [document] ∧
  document ∈ [document] ∧
  @malformedPayload JSONFragment.object (return_val document) ∧
  (@lookup JSONFragment.object lengthEmbeddings "prompt test 1" "llm:key"
     corruptedCache).2 =
    Throw (Error ("Could not decode json to list of generations: " +:+ "[{}]")).
Proof.
  cbv zeta.
  assert (@matched lengthEmbeddings "prompt test 1" "llm:key" corruptedCache =
            Ok [documentOf corruptedRecord]) as Hmatched by (by vm_compute).
  assert (documentOf corruptedRecord ∈ [documentOf corruptedRecord]) as Hin
    by apply list_elem_of_here.
  assert (@malformedPayload JSONFragment.object
            (return_val (documentOf corruptedRecord))) as Hbad.
  { right. exists [JObject []]. split; [by vm_compute|].
    exists (JObject []). split; [apply list_elem_of_here|].
    intros (properties & text & [= <-] & Htext). discriminate Htext. }
  split; [exact Hmatched|]. split; [exact Hin|]. split; [exact Hbad|].
  exact (@lookup_fails_on_malformed_payload JSONFragment.object lengthEmbeddings
           "prompt test 1" "llm:key" corruptedCache _ _ Hmatched Hin Hbad).
Defined.

(** The cache after an update that stores the empty list of results. *)
Definition emptyPayloadCache : MemorySemanticVectorStore :=
  @performAll JSONFragment.object lengthEmbeddings
    [CallUpdate "prompt test 1" "llm:key" []] newCache.


(* ===================================================================== *)
(** ** The life cycle of a namespace store *)
(* ===================================================================== *)

Lemma sinceLastClear_nil creates name : ¬ sinceLastClear creates [] name.
Proof. intros (earlier & call & later & Heq & _). by destruct earlier. Qed.

Lemma sinceLastClear_snoc creates calls call name :
  sinceLastClear creates (calls ++ [call]) name ↔
  (creates call = true ∧ indexName (keyOf call) = name) ∨
  (sinceLastClear creates calls name ∧
   ¬ (isClear call = true ∧ indexName (keyOf call) = name)).
Proof.
  split.
  - intros (earlier & c & later & Heq & Hcreates & Hname & Hlater).
    destruct (decide (later = [])) as [->|Hne].
    + apply app_inj_tail in Heq as [_ <-]. by left.
    + destruct (exists_last Hne) as (later' & last & ->).
      rewrite app_comm_cons, app_assoc in Heq.
      apply app_inj_tail in Heq as [-> <-].
      right. split.
      * exists earlier, c, later'. split_and!; [done..|].
        intros c' Hc'. apply Hlater. apply elem_of_app. by left.
      * intros [Hclear Hlast]. eapply Hlater; [|done..].
        apply elem_of_app. right. apply list_elem_of_here.
  - intros [[Hcreates Hname]|[(earlier & c & later & -> & Hcreates & Hname & Hlater) Hcall]].
    + exists calls, call, []. split_and!; [done..|].
      intros c Hc. by apply elem_of_nil in Hc.
    + exists earlier, c, (later ++ [call]). split_and!; [|done..|].
      * by rewrite <-app_assoc.
      * intros c' Hc' Hclear. apply elem_of_app in Hc' as [Hc'|Hc'].
        -- by apply Hlater.
        -- apply list_elem_of_singleton in Hc' as ->. intros Hn. by apply Hcall.
Qed.

Section LifeCycle.
Context `{JSONObject} `{Embeddings}.

Lemma getLlmCache_is_Some llmKey this name :
  is_Some (cacheDict (getLlmCache llmKey this).1 !! name) ↔
  name = indexName llmKey ∨ is_Some (cacheDict this !! name).
Proof.
  rewrite getLlmCache_cacheDict.
  destruct (decide (name = indexName llmKey)) as [->|Hne].
  - rewrite lookup_insert_eq. split; eauto.
  - rewrite lookup_insert_ne by done. split; [eauto|]. by intros [?|?].
Qed.

Lemma update_is_Some prompt llmKey returnVal this name :
  is_Some (cacheDict (update prompt llmKey returnVal this).1 !! name) ↔
  name = indexName llmKey ∨ is_Some (cacheDict this !! name).
Proof.
  rewrite <-getLlmCache_is_Some. unfold update.
  destruct (getLlmCache llmKey this) as [this' llmCache] eqn:E.
  assert (is_Some (cacheDict this' !! indexName llmKey)) as Hthere.
  { change this' with (this', llmCache).1. rewrite <-E.
    apply getLlmCache_is_Some. by left. }
  destruct (retriever_addDocuments llmCache _) as [store|e]; simpl; [|done].
  destruct (decide (name = indexName llmKey)) as [->|Hne].
  - rewrite lookup_insert_eq. split; eauto.
  - by rewrite lookup_insert_ne.
Qed.

Lemma perform_is_Some this call name :
  is_Some (cacheDict (perform this call) !! name) ↔
  (isLookupOrUpdate call = true ∧ indexName (keyOf call) = name) ∨
  (is_Some (cacheDict this !! name) ∧
   ¬ (isClear call = true ∧ indexName (keyOf call) = name)).
Proof.
  destruct call as [prompt llmKey|prompt llmKey returnVal|llmKey]; simpl.
  - rewrite lookup_state, getLlmCache_is_Some. split.
    + intros [->|Hsome]; [by left|]. right. split; [done|]. by intros [? _].
    + intros [[_ <-]|[Hsome _]]; eauto.
  - rewrite update_is_Some. split.
    + intros [->|Hsome]; [by left|]. right. split; [done|]. by intros [? _].
    + intros [[_ <-]|[Hsome _]]; eauto.
  - rewrite clear_cacheDict.
    destruct (decide (name = indexName llmKey)) as [->|Hne].
    + rewrite lookup_delete_eq. split.
      * by intros [? ?].
      * intros [[? _]|[_ Hn]]; [done|]. by destruct Hn.
    + rewrite lookup_delete_ne by done. split.
      * intros Hsome. right. split; [done|]. intros [_ Heq]. by destruct Hne.
      * intros [[? _]|[Hsome _]]; done.
Qed.

Lemma performAll_is_Some scoreThreshold similarity calls name :
  is_Some (cacheDict (performAll calls
             (MemorySemanticVectorStore_new scoreThreshold similarity)) !! name) ↔
  sinceLastClear isLookupOrUpdate calls name.
Proof.
  induction calls as [|call calls IH] using rev_ind.
  - simpl. rewrite lookup_empty. split; [by intros [? ?]|].
    intros Hs. by apply sinceLastClear_nil in Hs.
  - unfold performAll. rewrite foldl_snoc. fold (performAll calls).
    rewrite perform_is_Some, sinceLastClear_snoc. unfold performAll in IH.
    by rewrite IH.
Qed.

End LifeCycle.

(** C3 (amended): in every state reached from a new cache by lookups,
    updates and clears, the namespace store of a key exists in the mapping if
    and only if a lookup or an update for that key (for its index name) has
    occurred and no clear for it has occurred since; a lookup on an absent
    namespace creates its store, empty. There is no other way to create a
    namespace store. *)
Theorem namespace_exists_iff_looked_up_or_updated `{JSONObject} `{Embeddings}
    scoreThreshold similarity calls llmKey :
  (is_Some (cacheDict (performAll calls
              (MemorySemanticVectorStore_new scoreThreshold similarity))
            !! indexName llmKey) ↔
   sinceLastClear isLookupOrUpdate calls (indexName llmKey)) ∧
  (∀ prompt this,
     cacheDict this !! indexName llmKey = None →
     memoryVectors <$> cacheDict (lookup prompt llmKey this).1 !! indexName llmKey
       = Some []).
Proof.
  split; [apply performAll_is_Some|].
  intros prompt this Habsent.
  rewrite lookup_state, getLlmCache_cacheDict, lookup_insert_eq.
  unfold namespaceStore. by rewrite Habsent.
Qed.

Lemma namespace_exists_iff_looked_up_or_updated_witness :
  let calls :=
    [CallUpdate "prompt test 1" "llm:key" [textGeneration "generation test 1"];
     CallClear "llm:key";
     CallLookup "prompt test 1" "llm:key"] in
  sinceLastClear isLookupOrUpdate calls (indexName "llm:key") ∧
  is_Some (cacheDict (@performAll JSONFragment.object lengthEmbeddings calls newCache)
             !! indexName "llm:key") ∧
  cacheDict newCache !! indexName "llm:key" = None ∧
  memoryVectors <$>
    cacheDict (@lookup JSONFragment.object lengthEmbeddings "prompt test 1"
                 "llm:key" newCache).1 !! indexName "llm:key" = Some [].
Proof.
  cbv zeta.
  assert (sinceLastClear isLookupOrUpdate
            [CallUpdate "prompt test 1" "llm:key" [textGeneration "generation test 1"];
             CallClear "llm:key";
             CallLookup "prompt test 1" "llm:key"] (indexName "llm:key")) as Hsince.
  { exists [CallUpdate "prompt test 1" "llm:key" [textGeneration "generation test 1"];
            CallClear "llm:key"],
           (CallLookup "prompt test 1" "llm:key"), [].
    split_and!; [reflexivity..|]. intros c Hc. inversion Hc. }
  assert (cacheDict newCache !! indexName "llm:key" = None) as Habsent
    by reflexivity.
  destruct (@namespace_exists_iff_looked_up_or_updated JSONFragment.object
              lengthEmbeddings None None
              [CallUpdate "prompt test 1" "llm:key" [textGeneration "generation test 1"];
               CallClear "llm:key";
               CallLookup "prompt test 1" "llm:key"] "llm:key")
    as [Hiff Hcreated].
  split; [exact Hsince|]. split; [exact (proj2 Hiff Hsince)|].
  split; [exact Habsent|]. exact (Hcreated "prompt test 1" newCache Habsent).
Defined.

(** C3, as stated, fails: after a single lookup on a new cache the store of
    the key exists (empty), although no update has occurred. *)
Lemma lookup_creates_the_namespace_store :
  let calls := [CallLookup "prompt test 1" "llm:key"] in
  let this := @performAll JSONFragment.object lengthEmbeddings calls newCache in
  memoryVectors <$> cacheDict this !! indexName "llm:key" = Some [] ∧
  is_Some (cacheDict this !! indexName "llm:key") ∧
  ¬ sinceLastClear isUpdate calls (indexName "llm:key").
Proof.
  cbv zeta.
  assert (memoryVectors <$>
            cacheDict (@performAll JSONFragment.object lengthEmbeddings
                         [CallLookup "prompt test 1" "llm:key"] newCache)
              !! indexName "llm:key" = Some []) as Hstore by (by vm_compute).
  split; [exact Hstore|]. split.
  - revert Hstore. generalize (@performAll JSONFragment.object lengthEmbeddings
                                 [CallLookup "prompt test 1" "llm:key"] newCache).
    intros this Hstore. destruct (cacheDict this !! indexName "llm:key"); [eauto|done].
  - clear Hstore. intros (earlier & call & later & Heq & Hcreates & _).
    destruct earlier as [|c [|c' earlier]]; [|discriminate Heq..].
    injection Heq as <- <-. discriminate Hcreates.
Qed.

(* ===================================================================== *)
(** ** The round trip: update, then lookup *)
(* ===================================================================== *)

Lemma filteredMemoryVectors_None store :
  filteredMemoryVectors store None = memoryVectors store.
Proof.
  unfold filteredMemoryVectors. induction (memoryVectors store) as [|v l IH];
    simpl; [done|]. by rewrite IH.
Qed.

(** When the last record of the store scores strictly more than every other
    record, the search with [k = 1] returns that record. *)
Lemma search_top_is_last store query earlier last :
  memoryVectors store = earlier ++ [last] →
  Number.isNaN (scoreOf store query last) = false →
  Forall (λ v, Number.lt (scoreOf store query v) (scoreOf store query last) = true)
    earlier →
  similaritySearchVectorWithScore store query 1 None = Ok [scored store query last].
Proof.
  intros Hmem HnotNaN Hless.
  set (top := {| search_similarity := scoreOf store query last;
                 search_index := length earlier |}).
  assert (scoresNotNaN store query None) as Hnan.
  { unfold scoresNotNaN. rewrite filteredMemoryVectors_None, Hmem.
    apply Forall_app. split; [|by repeat constructor].
    eapply Forall_impl; [exact Hless|]. intros v Hv. simpl in Hv.
    by apply ltb_not_NaN in Hv as [? _]. }
  pose proof (searches_sorted_before store query None Hnan) as Hsorted.
  assert (∀ s, s ∈ Array_sort compareSearches
                     (scoreAll store query (filteredMemoryVectors store None)) →
               s = top ∨
               Number.gt (search_similarity top) (search_similarity s) = true)
    as Hcases.
  { intros s Hs. rewrite Array_sort_Permutation in Hs.
    apply list_elem_of_lookup in Hs as [i Hi].
    apply scoreAll_lookup in Hi as (v & Hv & ->).
    rewrite filteredMemoryVectors_None, Hmem in Hv.
    apply lookup_app_Some in Hv as [Hv|[Hlen Hv]].
    - right. simpl. rewrite Forall_forall in Hless.
      apply (Hless v). by eapply list_elem_of_lookup_2.
    - left. apply list_lookup_singleton_Some in Hv as [Hi <-].
      unfold top. f_equal. lia. }
  assert (top ∈ Array_sort compareSearches
                   (scoreAll store query (filteredMemoryVectors store None)))
    as Htop.
  { rewrite Array_sort_Permutation. apply list_elem_of_lookup.
    exists (length earlier). apply scoreAll_lookup. exists last. split; [|done].
    rewrite filteredMemoryVectors_None, Hmem.
    rewrite lookup_app_r by lia. by rewrite Nat.sub_diag. }
  rewrite similaritySearchVectorWithScore_Ok. unfold searches.
  rewrite Array_slice_from0_take by lia.
  destruct (Array_sort compareSearches _) as [|first rest] eqn:Hsort;
    [by apply elem_of_nil in Htop|].
  change (Z.to_nat 1) with 1. simpl.
  assert (first = top) as ->.
  { destruct (Hcases first) as [?|Hgt]; [left|done|].
    apply elem_of_cons in Htop as [?|Htop]; [done|].
    apply StronglySorted_cons in Hsorted as [Hall _].
    rewrite Forall_forall in Hall. specialize (Hall top Htop).
    destruct Hall as [Hp|[Hp _]]; rewrite precedes_compareSearches in Hp.
    - apply gt_asym in Hgt. congruence.
    - congruence. }
  unfold resultOf, top. simpl.
  rewrite filteredMemoryVectors_None, Hmem.
  rewrite lookup_app_r by lia. by rewrite Nat.sub_diag.
Qed.

(** C5 (amended): for every key and prompt, when the provider embeds the
    prompt to the same vector [e] for the update and for the lookup, [JSON]
    reads back the serialized value, the namespace store uses the default
    cosine, the score of [e] against itself is at least the threshold, and
    every record already in the namespace scores strictly less against [e]
    than [e] itself, then [update(prompt, key, [{text: X}])] followed by
    [lookup(prompt, key)] returns the one-entry sequence with text [X]. *)
Theorem update_then_lookup_returns_value `{JSONObject} `{Embeddings}
    prompt llmKey X generation this :
  text generation = X →
  embedDocuments [prompt] = [embedQuery prompt] →
  JSON_parse (dumpGenerationsToJson [generation]) =
    Some (JArray [JObject [("text", JString X)]]) →
  similarity (namespaceStore llmKey this) = cosine →
  Number.ge (cosine (embedQuery prompt) (embedQuery prompt)) (scoreThreshold this)
    = true →
  Forall (λ v, Number.lt (cosine (embedQuery prompt) (embedding v))
                 (cosine (embedQuery prompt) (embedQuery prompt)) = true)
    (memoryVectors (namespaceStore llmKey this)) →
  (lookup prompt llmKey (update prompt llmKey [generation] this).1).2 =
    Ok (Some [GenerationChunk X]).
Proof.
  intros Htext Hembed Hjson Hcosine Hself Hless.
  rewrite (update_one _ _ _ _ _ Hembed). simpl.
  rewrite lookup_result. unfold matched.
  rewrite getLlmCache_retriever. unfold namespaceStore at 1. simpl.
  rewrite lookup_insert_eq. simpl.
  unfold getRelevantDocuments, similaritySearchWithScore. simpl.
  erewrite search_top_is_last; [|simpl; reflexivity|..].
  - simpl. unfold scoreOf. simpl. rewrite Hcosine.
    rewrite (ge_not_lt _ _ Hself). simpl.
    unfold return_val. simpl. rewrite lookup_insert_ne by done.
    rewrite lookup_insert_ne by done. rewrite lookup_singleton_eq. simpl.
    unfold loadGenerationsFromJson, decodeGenerations. rewrite Hjson. simpl.
    done.
  - unfold scoreOf. simpl. rewrite Hcosine.
    by apply leb_not_NaN in Hself as [_ ?].
  - unfold scoreOf. simpl. by rewrite Hcosine.
Qed.

(** Every namespace store of a reachable cache uses the default cosine:
    [getLlmCache] creates the stores without a [similarity] argument, and
    nothing else enters the dictionary. *)
Section ReachableStores.
Context `{JSONObject} `{Embeddings}.

Definition allCosine (this : MemorySemanticVectorStore) : Prop :=
  map_Forall (λ _ store, similarity store = cosine) (cacheDict this).

Lemma addDocuments_similarity store documents store' :
  addDocuments store documents = Ok store' → similarity store' = similarity store.
Proof.
  unfold addDocuments, addVectors.
  destruct (mapM _ _) as [vectors|e]; simpl; [|done]. by intros [= <-].
Qed.

Lemma namespaceStore_allCosine llmKey this :
  allCosine this → similarity (namespaceStore llmKey this) = cosine.
Proof.
  intros Hall. unfold namespaceStore.
  destruct (cacheDict this !! indexName llmKey) as [store|] eqn:E; simpl; [|done].
  by apply (Hall _ _ E).
Qed.

Lemma getLlmCache_allCosine llmKey this :
  allCosine this → allCosine (getLlmCache llmKey this).1.
Proof.
  intros Hall. unfold allCosine. rewrite getLlmCache_cacheDict.
  apply map_Forall_insert_2; [|done]. by apply namespaceStore_allCosine.
Qed.

Lemma perform_allCosine this call :
  allCosine this → allCosine (perform this call).
Proof.
  intros Hall. destruct call as [prompt llmKey|prompt llmKey returnVal|llmKey]; simpl.
  - rewrite lookup_state. by apply getLlmCache_allCosine.
  - unfold update.
    pose proof (getLlmCache_allCosine llmKey this Hall) as Hall'.
    pose proof (getLlmCache_retriever llmKey this) as Hretriever.
    destruct (getLlmCache llmKey this) as [this' llmCache]. simpl in *.
    destruct (retriever_addDocuments llmCache _) as [store|e] eqn:Hadd; simpl; [|done].
    unfold allCosine. simpl. apply map_Forall_insert_2; [|done].
    apply addDocuments_similarity in Hadd. rewrite Hadd, Hretriever. simpl.
    by apply namespaceStore_allCosine.
  - unfold allCosine. rewrite clear_cacheDict. by apply map_Forall_delete.
Qed.

Lemma performAll_allCosine scoreThreshold similarity calls :
  allCosine (performAll calls (MemorySemanticVectorStore_new scoreThreshold similarity)).
Proof.
  induction calls as [|call calls IH] using rev_ind.
  - apply map_Forall_empty.
  - unfold performAll. rewrite foldl_snoc. by apply perform_allCosine.
Qed.

End ReachableStores.

Lemma update_then_lookup_returns_value_witness :
  let prompt := "Who killed John F. Kennedy?" in
  let generation := textGeneration "Lee Harvey Oswald" in
  let e := @embedQuery lengthEmbeddings prompt in
  text generation = "Lee Harvey Oswald" ∧
  @embedDocuments lengthEmbeddings [prompt] = [e] ∧
  @JSON_parse JSONFragment.object
     (@dumpGenerationsToJson JSONFragment.object [generation]) =
    Some (JArray [JObject [("text", JString "Lee Harvey Oswald")]]) ∧
  similarity (namespaceStore "llm:key" emptyPayloadCache) = cosine ∧
  Number.ge (cosine e e) (scoreThreshold emptyPayloadCache) = true ∧
  Forall (λ v, Number.lt (cosine e (embedding v)) (cosine e e) = true)
    (memoryVectors (namespaceStore "llm:key" emptyPayloadCache)) ∧
  (@lookup JSONFragment.object lengthEmbeddings prompt "llm:key"
     (@update JSONFragment.object lengthEmbeddings prompt "llm:key" [generation]
        emptyPayloadCache).1).2 =
    Ok (Some [GenerationChunk "Lee Harvey Oswald"]).
Proof.
  cbv zeta.
  assert (text (textGeneration "Lee Harvey Oswald") = "Lee Harvey Oswald")
    as Htext by reflexivity.
  assert (@embedDocuments lengthEmbeddings ["Who killed John F. Kennedy?"] =
            [@embedQuery lengthEmbeddings "Who killed John F. Kennedy?"])
    as Hembed by reflexivity.
  assert (@JSON_parse JSONFragment.object
            (@dumpGenerationsToJson JSONFragment.object
               [textGeneration "Lee Harvey Oswald"]) =
            Some (JArray [JObject [("text", JString "Lee Harvey Oswald")]]))
    as Hjson by (by vm_compute).
  assert (similarity (namespaceStore "llm:key" emptyPayloadCache) = cosine)
    as Hcosine
    by (apply namespaceStore_allCosine;
        apply (@performAll_allCosine JSONFragment.object lengthEmbeddings)).
  assert (Number.ge
            (cosine (@embedQuery lengthEmbeddings "Who killed John F. Kennedy?")
               (@embedQuery lengthEmbeddings "Who killed John F. Kennedy?"))
            (scoreThreshold emptyPayloadCache) = true) as Hself by (by vm_compute).
  assert (memoryVectors (namespaceStore "llm:key" emptyPayloadCache) =
            [@cachedRecord JSONFragment.object "prompt test 1" "llm:key" []
               [Number.of_Z 13; Number.of_Z 1]]) as Hrecords by (by vm_compute).
  assert (Forall
            (λ v, Number.lt
                    (cosine (@embedQuery lengthEmbeddings "Who killed John F. Kennedy?")
                       (embedding v))
                    (cosine (@embedQuery lengthEmbeddings "Who killed John F. Kennedy?")
                       (@embedQuery lengthEmbeddings "Who killed John F. Kennedy?"))
                  = true)
            (memoryVectors (namespaceStore "llm:key" emptyPayloadCache))) as Hless
    by (rewrite Hrecords; closed_Forall).
  split; [exact Htext|]. split; [exact Hembed|]. split; [exact Hjson|].
  split; [exact Hcosine|]. split; [exact Hself|]. split; [exact Hless|].
  exact (@update_then_lookup_returns_value JSONFragment.object lengthEmbeddings
           "Who killed John F. Kennedy?" "llm:key" "Lee Harvey Oswald"
           (textGeneration "Lee Harvey Oswald") emptyPayloadCache
           Htext Hembed Hjson Hcosine Hself Hless).
Defined.

(** C5, as stated, fails: the provider is a function of the text, every
    namespace store uses the default cosine and the threshold is the default
    [0.2], yet when the namespace already holds a record for the same prompt,
    the lookup that follows the update returns the older record's value. The
    search keeps one result ([maxK = 1]) and the older record wins the tie. *)
Lemma update_then_lookup_returns_older_value :
  let prompt := "Who killed John F. Kennedy?" in
  let this :=
    @performAll JSONFragment.object lengthEmbeddings
      [CallUpdate prompt "llm:key" [textGeneration "Someone else"]] newCache in
  Number.lt (scoreThreshold this) (Number.of_Z 1) = true ∧
  (@lookup JSONFragment.object lengthEmbeddings prompt "llm:key"
     (@update JSONFragment.object lengthEmbeddings prompt "llm:key"
        [textGeneration "Lee Harvey Oswald"] this).1).2 =
    Ok (Some [GenerationChunk "Someone else"]).
Proof. cbv zeta. split; by vm_compute. Qed.

(** The score of a vector against itself need not be [1]: for [(1, 1)] the
    cosine is [1 - 2^-52]. With the threshold [1 - 2^-53], which is below
    [1], the lookup that follows an update on a new cache returns [null]. *)
Lemma self_similarity_below_threshold :
  let threshold := S754_finite false 9007199254740991 (-53) in
  let this := MemorySemanticVectorStore_new (Some threshold) None in
  @embedQuery lengthEmbeddings "a" = vec2 1 1 ∧
  cosine (vec2 1 1) (vec2 1 1) = S754_finite false 9007199254740990 (-53) ∧
  Number.lt threshold (Number.of_Z 1) = true ∧
  Number.lt (cosine (vec2 1 1) (vec2 1 1)) threshold = true ∧
  (@lookup JSONFragment.object lengthEmbeddings "a" "llm:key"
     (@update JSONFragment.object lengthEmbeddings "a" "llm:key"
        [textGeneration "X"] this).1).2 = Ok None.
Proof. cbv zeta. split_and!; by vm_compute. Qed.

(* ===================================================================== *)
(** ** Adding vectors and documents *)
(* ===================================================================== *)

(** The record [addVectors] makes of an embedding and its document. *)
Definition memoryVectorOf (embedding : list number) (document : Document)
  : MemoryVector :=
  {| content := pageContent document;
     embedding := embedding;
     vectorMetadata := metadata document |}.

Lemma addVectors_map_from (documents : list Document) (vectors : list (list number))
    (n : nat) :
  mapM (λ '(idx, embedding),
      match documents !! idx with
      | Some document => Ok (memoryVectorOf embedding document)
      | None => Throw TypeError
      end) (imap (λ i, pair (n + i)) vectors) =
  if decide (length vectors ≤ length (drop n documents))
  then Ok (zip_with memoryVectorOf vectors (drop n documents))
  else Throw TypeError.
Proof.
  revert n. induction vectors as [|e vectors IH]; intros n.
  - destruct (decide (length (@nil (list number)) ≤ length (drop n documents)))
      as [_|Hn]; [done|]. simpl in Hn. lia.
  - rewrite imap_cons. cbn [mapM]. rewrite Nat.add_0_r.
    rewrite (imap_ext _ (λ i, pair (S n + i))) by (intros; simpl; f_equal; lia).
    rewrite IH.
    destruct (documents !! n) as [document|] eqn:Hn.
    + rewrite (drop_S _ _ _ Hn).
      destruct (decide (length vectors ≤ length (drop (S n) documents)));
        destruct (decide (length (e :: vectors)
                            ≤ length (document :: drop (S n) documents)))
          as [Hle|Hle]; simpl in Hle; try lia; done.
    + apply lookup_ge_None in Hn. rewrite (drop_ge documents n) by done.
      destruct (decide (length (e :: vectors) ≤ length (@nil Document)))
        as [Hle|_]; [simpl in Hle; lia|done].
Qed.

Lemma addVectors_zip store vectors documents :
  addVectors store vectors documents =
  if decide (length vectors ≤ length documents)
  then Ok {| memoryVectors :=
               memoryVectors store ++ zip_with memoryVectorOf vectors documents;
             similarity := similarity store |}
  else Throw TypeError.
Proof.
  unfold addVectors.
  pose proof (addVectors_map_from documents vectors 0) as Hmap.
  rewrite drop_0 in Hmap. simpl in Hmap. unfold memoryVectorOf in Hmap.
  rewrite (imap_ext _ pair) in Hmap by done. rewrite Hmap.
  by destruct (decide _).
Qed.

(** X1: [addVectors] pairs the vectors with the documents by position. With
    no more vectors than documents it returns the store with one record per
    vector appended, in order, the documents past the last vector being left
    out without notice; with more vectors than documents it throws a
    [TypeError]. The similarity function is kept. *)
Theorem addVectors_pairs_by_position store vectors documents :
  addVectors store vectors documents =
  if decide (length vectors ≤ length documents)
  then Ok {| memoryVectors :=
               memoryVectors store ++ zip_with memoryVectorOf vectors documents;
             similarity := similarity store |}
  else Throw TypeError.
Proof.
  unfold addVectors.
  pose proof (addVectors_map_from documents vectors 0) as Hmap.
  rewrite drop_0 in Hmap. simpl in Hmap. unfold memoryVectorOf in Hmap.
  rewrite (imap_ext _ pair) in Hmap by done. rewrite Hmap.
  by destruct (decide _).
Qed.

(** X2: when the provider answers one embedding per text, [addDocuments]
    returns, keeps the records the store had, and appends one record per
    document in order: the document at position [i] lands at position
    [length of the old records + i], with the document's content and
    metadata and the embedding the provider gave at position [i]. *)
Theorem addDocuments_appends_in_order `{Embeddings} store documents :
  length (embedDocuments (pageContent <$> documents)) = length documents →
  ∃ store',
    addDocuments store documents = Ok store' ∧
    similarity store' = similarity store ∧
    take (length (memoryVectors store)) (memoryVectors store') = memoryVectors store ∧
    length (memoryVectors store') = length (memoryVectors store) + length documents ∧
    ∀ i document,
      documents !! i = Some document →
      ∃ embedding,
        embedDocuments (pageContent <$> documents) !! i = Some embedding ∧
        memoryVectors store' !! (length (memoryVectors store) + i) =
          Some {| content := pageContent document;
                  embedding := embedding;
                  vectorMetadata := metadata document |}.
Proof.
  intros Hlen. unfold addDocuments. rewrite addVectors_zip.
  destruct (decide _) as [_|Hn]; [|lia].
  eexists. split; [reflexivity|]. simpl. split_and!.
  - done.
  - by rewrite take_app_length.
  - rewrite length_app, length_zip_with. lia.
  - intros i document Hi.
    destruct (lookup_lt_is_Some_2 (embedDocuments (pageContent <$> documents)) i)
      as [e He]; [apply lookup_lt_Some in Hi; lia|].
    exists e. split; [done|].
    rewrite lookup_app_r by lia.
    replace (length (memoryVectors store) + i - length (memoryVectors store))
      with i by lia.
    rewrite lookup_zip_with, He. simpl. by rewrite Hi.
Qed.

Lemma addDocuments_appends_in_order_witness :
  let documents :=
    [ {| pageContent := "hello"; metadata := {[ "a" := JNumber "1" ]} |};
      {| pageContent := "hi"; metadata := {[ "a" := JNumber "1" ]} |} ] in
  length (@embedDocuments lengthEmbeddings (pageContent <$> documents))
    = length documents ∧
  ∃ store',
    @addDocuments lengthEmbeddings tieStore documents = Ok store' ∧
    length (memoryVectors store') = 5 ∧
    memoryVectors store' !! 4 =
      Some {| content := "hi";
              embedding := [Number.of_Z 2; Number.of_Z 1];
              vectorMetadata := {[ "a" := JNumber "1" ]} |}.
Proof.
  cbv zeta.
  assert (length (@embedDocuments lengthEmbeddings
            (pageContent <$>
               [ {| pageContent := "hello"; metadata := {[ "a" := JNumber "1" ]} |};
                 {| pageContent := "hi"; metadata := {[ "a" := JNumber "1" ]} |} ]))
          = 2) as Hlen by reflexivity.
  destruct (@addDocuments_appends_in_order lengthEmbeddings tieStore _ Hlen)
    as (store' & Hadd & _ & _ & Hlength & Hat).
  split; [exact Hlen|]. exists store'. split; [exact Hadd|]. split; [exact Hlength|].
  destruct (Hat 1 {| pageContent := "hi"; metadata := {[ "a" := JNumber "1" ]} |}
              eq_refl) as (e & He & Hrecord).
  injection He as <-. exact Hrecord.
Defined.

(* ===================================================================== *)
(** ** More about the similarity search *)
(* ===================================================================== *)

Lemma scoreAll_indices store query filtered :
  search_index <$> scoreAll store query filtered = seq 0 (length filtered).
Proof.
  apply list_eq. intros i. rewrite list_lookup_fmap.
  destruct (scoreAll store query filtered !! i) as [s|] eqn:E; simpl.
  - apply scoreAll_lookup in E as (v & Hv & ->). simpl.
    symmetry. apply lookup_seq. split; [done|]. by eapply lookup_lt_Some.
  - apply lookup_ge_None in E. rewrite scoreAll_length in E.
    symmetry. apply lookup_ge_None. by rewrite length_seq.
Qed.

Lemma searches_indices_NoDup store query k filter :
  NoDup (search_index <$> searches store query k filter).
Proof.
  destruct (searches_prefix store query k filter) as [n ->].
  rewrite fmap_take. eapply sublist_NoDup; [|apply sublist_take].
  rewrite Array_sort_Permutation, scoreAll_indices. apply NoDup_seq.
Qed.

Lemma filteredMemoryVectors_elem_of store filter v :
  v ∈ filteredMemoryVectors store filter ↔
  v ∈ memoryVectors store ∧ filterFunction filter v = true.
Proof.
  unfold filteredMemoryVectors. rewrite !list_elem_of_In, List.filter_In. done.
Qed.

(** X3: for every [k] and filter the search returns, and what it returns are
    the documents of pairwise distinct records of the store that pass the
    filter, each paired with the similarity of the query and that record's
    embedding: no record is returned twice, none is invented, none that the
    filter rejects is returned. *)
Theorem search_returns_distinct_filtered_records store query k filter :
  ∃ results positions,
    similaritySearchVectorWithScore store query k filter = Ok results ∧
    NoDup positions ∧
    Forall2 (λ position result,
        ∃ v, filteredMemoryVectors store filter !! position = Some v ∧
             result = (documentOf v, similarity store query (embedding v)))
      positions results ∧
    Forall (λ result,
        ∃ v, v ∈ memoryVectors store ∧ filterFunction filter v = true ∧
             result = (documentOf v, similarity store query (embedding v)))
      results.
Proof.
  exists (resultOf store filter <$> searches store query k filter),
         (search_index <$> searches store query k filter).
  split; [apply similaritySearchVectorWithScore_Ok|].
  split; [apply searches_indices_NoDup|].
  assert (∀ s, s ∈ searches store query k filter →
               ∃ v, filteredMemoryVectors store filter !! search_index s = Some v ∧
                    resultOf store filter s =
                      (documentOf v, similarity store query (embedding v)))
    as Hentry.
  { intros s Hs. apply searches_elem_of in Hs as (v & Hv & Hsim).
    exists v. split; [done|]. unfold resultOf. rewrite Hv. simpl.
    by rewrite Hsim. }
  split.
  - apply Forall2_fmap, Forall_Forall2_diag, Forall_forall. exact Hentry.
  - apply Forall_fmap, Forall_forall. intros s Hs.
    destruct (Hentry s Hs) as (v & Hv & Hresult). exists v.
    apply list_elem_of_lookup_2, filteredMemoryVectors_elem_of in Hv as [? ?].
    done.
Qed.

(** The number of entries [slice(0, k)] keeps of an array of [n] elements. *)
Definition sliceCount (k : Z) (n : nat) : nat :=
  Z.to_nat (if (k <? 0)%Z then Z.max (Z.of_nat n + k) 0
            else Z.min k (Z.of_nat n)).

Lemma Array_slice_from0_sliceCount {A} (k : Z) (array : list A) :
  Array_slice_from0 k array = take (sliceCount k (length array)) array.
Proof. reflexivity. Qed.

(** X4: the filtered records have one ranking, the result of the search with
    [k] equal to their number, and the search with any integer [k] returns
    its first entries: [min(k, n)] of them when [k >= 0], and [max(n + k, 0)]
    when [k] is negative, so a negative [k] drops results from the end of the
    ranking instead of returning nothing. A larger non-negative [k] only
    appends results. *)
Theorem search_returns_prefix_of_ranking store query filter :
  let n := length (filteredMemoryVectors store filter) in
  ∃ ranking,
    similaritySearchVectorWithScore store query (Z.of_nat n) filter = Ok ranking ∧
    length ranking = n ∧
    ∀ k, similaritySearchVectorWithScore store query k filter =
           Ok (take (sliceCount k n) ranking).
Proof.
  intros n.
  set (sorted := Array_sort compareSearches
                   (scoreAll store query (filteredMemoryVectors store filter))).
  assert (length sorted = n) as Hlen
    by (unfold sorted; by rewrite Array_sort_length, scoreAll_length).
  assert (∀ k, similaritySearchVectorWithScore store query k filter =
                 Ok (take (sliceCount k n) (resultOf store filter <$> sorted)))
    as Hall.
  { intros k. rewrite similaritySearchVectorWithScore_Ok. unfold searches.
    fold sorted. rewrite Array_slice_from0_sliceCount, Hlen.
    by rewrite fmap_take. }
  exists (resultOf store filter <$> sorted). split_and!.
  - rewrite Hall. rewrite take_ge; [done|].
    rewrite length_fmap, Hlen. unfold sliceCount.
    destruct (Z.of_nat n <? 0)%Z eqn:E; [apply Z.ltb_lt in E|]; lia.
  - by rewrite length_fmap.
  - exact Hall.
Qed.

(** X5: provided no record passing the filter scores [NaN], the results are
    the best: every returned score is [>=] the score of every filtered record
    that is not returned, and the scores come in non-increasing order. The
    positions name the filtered record behind each result. *)
Theorem search_returns_the_best store query k filter :
  scoresNotNaN store query filter →
  ∃ results positions,
    similaritySearchVectorWithScore store query k filter = Ok results ∧
    Forall2 (λ position result,
        ∃ v, filteredMemoryVectors store filter !! position = Some v ∧
             result = scored store query v) positions results ∧
    ∀ result i v,
      result ∈ results →
      filteredMemoryVectors store filter !! i = Some v →
      i ∉ positions →
      Number.ge result.2 (scoreOf store query v) = true.
Proof.
  intros Hnan.
  exists (resultOf store filter <$> searches store query k filter),
         (search_index <$> searches store query k filter).
  split; [apply similaritySearchVectorWithScore_Ok|]. split.
  - apply Forall2_fmap, Forall_Forall2_diag, Forall_forall. intros s Hs.
    apply searches_elem_of in Hs as (v & Hv & Hsim).
    exists v. split; [done|]. unfold resultOf, scored. rewrite Hv. simpl.
    by rewrite Hsim.
  - intros result i v Hresult Hv Hi.
    apply list_elem_of_fmap in Hresult as (a & -> & Ha). simpl.
    pose proof (searches_sorted_before store query filter Hnan) as Hsorted.
    destruct (searches_prefix store query k filter) as [m Hm].
    rewrite Hm in Ha, Hi.
    set (sorted := Array_sort compareSearches
                     (scoreAll store query (filteredMemoryVectors store filter)))
      in *.
    set (entry := {| search_similarity := scoreOf store query v;
                     search_index := i |}).
    assert (entry ∈ sorted) as Hentry.
    { unfold sorted. rewrite Array_sort_Permutation.
      apply list_elem_of_lookup. exists i. apply scoreAll_lookup. eauto. }
    rewrite <-(take_drop m sorted) in Hentry, Hsorted.
    apply elem_of_app in Hentry as [Hentry|Hentry].
    { destruct Hi. apply list_elem_of_fmap. by exists entry. }
    assert (notNaN a) as Hna.
    { apply (searches_notNaN store query k filter); [done|]. by rewrite Hm. }
    assert (notNaN entry) as Hne.
    { unfold notNaN, entry. simpl. unfold scoresNotNaN in Hnan.
      rewrite Forall_forall in Hnan. apply Hnan. by eapply list_elem_of_lookup_2. }
    change (scoreOf store query v) with (search_similarity entry).
    apply before_ge; [done..|].
    by eapply (StronglySorted_app_1_elem_of _ (take m sorted) (drop m sorted)).
Qed.

Lemma search_returns_the_best_witness :
  let query := [Number.of_Z 1] in
  scoresNotNaN tieStore query None ∧
  ∃ results positions,
    similaritySearchVectorWithScore tieStore query 2 None = Ok results ∧
    Forall2 (λ position result,
        ∃ v, filteredMemoryVectors tieStore None !! position = Some v ∧
             result = scored tieStore query v) positions results ∧
    ∀ result i v,
      result ∈ results →
      filteredMemoryVectors tieStore None !! i = Some v →
      i ∉ positions →
      Number.ge result.2 (scoreOf tieStore query v) = true.
Proof.
  cbv zeta.
  assert (scoresNotNaN tieStore [Number.of_Z 1] None) as Hnan by closed_Forall.
  split; [exact Hnan|].
  exact (search_returns_the_best tieStore [Number.of_Z 1] 2 None Hnan).
Defined.

Lemma filter_accepting_all {A} (l : list A) : List.filter (λ _, true) l = l.
Proof. induction l as [|x l IH]; simpl; [done|]. by rewrite IH. Qed.

(** X6: searching with a filter is searching, without filter, the store cut
    down to the records that pass it: the records the filter rejects have no
    influence on the result, not even through the positions used to break
    ties. An absent filter is the filter that accepts every document. *)
Theorem search_with_filter_is_search_of_filtered_store store query k filter :
  similaritySearchVectorWithScore store query k filter =
    similaritySearchVectorWithScore
      {| memoryVectors := filteredMemoryVectors store filter;
         similarity := similarity store |} query k None ∧
  similaritySearchVectorWithScore store query k None =
    similaritySearchVectorWithScore store query k (Some (λ _, true)).
Proof.
  split.
  - set (store' := {| memoryVectors := filteredMemoryVectors store filter;
                      similarity := similarity store |}).
    assert (filteredMemoryVectors store' None =
            filteredMemoryVectors store filter) as Hsame
      by apply filter_accepting_all.
    unfold similaritySearchVectorWithScore, searches, scoreAll.
    rewrite Hsame. reflexivity.
  - reflexivity.
Qed.


(* ===================================================================== *)
(** ** A store built from documents *)
(* ===================================================================== *)

(** What a filter accepts; an absent filter accepts every document. *)
Definition accepts (filter : FilterType) (document : Document) : bool :=
  match filter with
  | None => true
  | Some filter => filter document
  end.

Lemma documentOf_memoryVectorOf embedding document :
  documentOf (memoryVectorOf embedding document) = document.
Proof. by destruct document. Qed.

Lemma documentOf_zip_with (vectors : list (list number)) (documents : list Document) :
  length vectors = length documents →
  documentOf <$> zip_with memoryVectorOf vectors documents = documents.
Proof.
  revert documents. induction vectors as [|e vectors IH];
    intros [|d documents] Hlen; simpl in *; try done.
  rewrite documentOf_memoryVectorOf. f_equal. apply IH. lia.
Qed.

Lemma documentOf_filter (filter : FilterType) (vectors : list MemoryVector) :
  documentOf <$> List.filter (filterFunction filter) vectors =
  List.filter (accepts filter) (documentOf <$> vectors).
Proof.
  induction vectors as [|v vectors IH]; [done|].
  rewrite fmap_cons. cbn [List.filter].
  replace (filterFunction filter v) with (accepts filter (documentOf v))
    by by destruct filter.
  destruct (accepts filter (documentOf v)); rewrite ?fmap_cons, IH; done.
Qed.

Lemma search_all_Permutation store query k filter :
  (Z.of_nat (length (filteredMemoryVectors store filter)) ≤ k)%Z →
  ∃ results,
    similaritySearchVectorWithScore store query k filter = Ok results ∧
    results ≡ₚ scored store query <$> filteredMemoryVectors store filter.
Proof.
  intros Hk. eexists. split; [apply similaritySearchVectorWithScore_Ok|].
  unfold searches. rewrite Array_slice_from0_take by lia.
  rewrite take_ge by (rewrite Array_sort_length, scoreAll_length; lia).
  rewrite Array_sort_Permutation. by rewrite resultOf_scoreAll.
Qed.

Section StoreFromDocuments.
Context `{Embeddings}.

(** [fromDocuments]: a new store, then [addDocuments]. *)
Definition fromDocuments (docs : list Document)
    (dbConfig : option (list number → list number → number))
  : result MemoryVectorStore :=
  addDocuments (MemoryVectorStore_new dbConfig) docs.

(** X7: when the provider returns one embedding for each document,
    [fromDocuments] succeeds, the store uses the similarity of [dbConfig]
    (cosine when absent), and a search of it with [k] at least the number of
    documents returns, in some order, exactly the documents the filter
    accepts, each once, whatever the scores are (even [NaN]). *)
Theorem fromDocuments_search_returns_the_documents
    (docs : list Document) dbConfig (query : list number) (k : Z)
    (filter : FilterType) :
  length (embedDocuments (pageContent <$> docs)) = length docs →
  (Z.of_nat (length docs) ≤ k)%Z →
  ∃ store results,
    fromDocuments docs dbConfig = Ok store ∧
    similarity store = default cosine dbConfig ∧
    documentOf <$> memoryVectors store = docs ∧
    similaritySearchVectorWithScore store query k filter = Ok results ∧
    results.*1 ≡ₚ List.filter (accepts filter) docs.
Proof.
  intros Hlen Hk. unfold fromDocuments, addDocuments.
  rewrite addVectors_zip.
  destruct (decide _) as [_|Hgt]; [|lia]. simpl.
  set (store := {| memoryVectors := _ |}).
  assert (documentOf <$> memoryVectors store = docs) as Hdocs
    by by apply documentOf_zip_with.
  assert (length (filteredMemoryVectors store filter) ≤ length docs) as Hle.
  { unfold filteredMemoryVectors.
    etrans; [apply List.filter_length_le|]. by rewrite <-Hdocs, length_fmap. }
  destruct (search_all_Permutation store query k filter) as (results & Hr & Hperm);
    [lia|].
  exists store, results. split_and!; [done..|].
  rewrite Hperm, <-list_fmap_compose.
  rewrite (list_fmap_ext (fst ∘ scored store query) documentOf _
             (λ _ _ _, eq_refl)).
  unfold filteredMemoryVectors. by rewrite documentOf_filter, Hdocs.
Qed.

End StoreFromDocuments.

Lemma fromDocuments_search_returns_the_documents_witness :
  let docs := [ {| pageContent := "a"; metadata := ∅ |};
                {| pageContent := "bc"; metadata := ∅ |} ] in
  length (@embedDocuments lengthEmbeddings (pageContent <$> docs)) = length docs ∧
  (Z.of_nat (length docs) ≤ 5)%Z ∧
  ∃ store results,
    @fromDocuments lengthEmbeddings docs None = Ok store ∧
    similarity store = default cosine None ∧
    documentOf <$> memoryVectors store = docs ∧
    similaritySearchVectorWithScore store [Number.of_Z 1; Number.of_Z 1] 5 None
      = Ok results ∧
    results.*1 ≡ₚ List.filter (accepts None) docs.
Proof.
  cbv zeta. split; [reflexivity|]. split; [simpl; lia|].
  apply (@fromDocuments_search_returns_the_documents lengthEmbeddings);
    [reflexivity|simpl; lia].
Defined.


(* ===================================================================== *)
(** ** Decoding and encoding the cached values *)
(* ===================================================================== *)

(** The decoded element is an object whose [text] is a string, and the
    generation made of it carries that text. *)
Definition decodedAs (generationDict : JSValue) (generation : Generation) : Prop :=
  ∃ properties text,
    generationDict = JObject properties ∧
    getOwnProperty "text" properties = Some (JString text) ∧
    generation = GenerationChunk text.

(** The object [dumpGenerationsToJson] makes of a generation. *)
Definition dumped (generation : Generation) : JSValue :=
  JObject [("text", JString (text generation))].

Lemma mapM_Ok_Forall2 {A B} (f : A → result B) (l : list A) (k : list B) :
  mapM f l = Ok k ↔ Forall2 (λ x y, f x = Ok y) l k.
Proof.
  revert k. induction l as [|x l IH]; intros k; simpl.
  - split; [intros [= <-]; constructor|].
    intros Hall. by apply Forall2_nil_inv_l in Hall as ->.
  - destruct (f x) as [y|e] eqn:Hx; simpl.
    + destruct (mapM f l) as [k'|e] eqn:Hl; simpl.
      * split.
        -- intros [= <-]. constructor; [done|]. by apply IH.
        -- intros Hall. apply Forall2_cons_inv_l in Hall
             as (y' & k'' & Hy & Hall & ->).
           apply IH in Hall. injection Hall as <-.
           rewrite Hx in Hy. injection Hy as <-. reflexivity.
      * split; [discriminate|].
        intros Hall. apply Forall2_cons_inv_l in Hall
          as (y' & k'' & Hy & Hall & ->).
        apply IH in Hall. discriminate.
    + split; [discriminate|].
      intros Hall. apply Forall2_cons_inv_l in Hall
        as (y' & k'' & Hy & Hall & ->). congruence.
Qed.

Section DecodingFacts.
Context `{JSONObject}.

Lemma decodeGenerations_element generationDict generation :
  (value ← getProperty generationDict "text";
   match value with
   | JString text => Ok (GenerationChunk text)
   | _ => Throw (Error ("Invalid generation text: " +:+ ToString value))
   end) = Ok generation ↔ decodedAs generationDict generation.
Proof.
  split.
  - destruct generationDict as [| | | | |elements|properties]; simpl;
      try discriminate.
    destruct (getOwnProperty "text" properties) as [[| | | |text| |]|] eqn:Hprop;
      simpl; try discriminate.
    intros [= <-]. by exists properties, text.
  - intros (properties & text & -> & Hprop & ->). simpl. by rewrite Hprop.
Qed.

(** X8: [loadGenerationsFromJson] returns exactly on the texts that parse to
    an array whose every element is an object with a string [text]; the
    result then has one generation per element, in order, carrying that text
    and nothing else of the element. Whatever else goes wrong (a syntax
    error, a value that is no array, an element without a string [text]),
    the one exception that leaves the function is the decode [Error] quoting
    the whole text. *)
Theorem loadGenerationsFromJson_characterised (generationsJson : string) :
  (∀ generations,
     loadGenerationsFromJson generationsJson = Ok generations ↔
     ∃ results,
       JSON_parse generationsJson = Some (JArray results) ∧
       Forall2 decodedAs results generations) ∧
  (∀ error,
     loadGenerationsFromJson generationsJson = Throw error →
     error = Error ("Could not decode json to list of generations: "
                      +:+ generationsJson)).
Proof.
  split.
  - intros generations. unfold loadGenerationsFromJson, decodeGenerations.
    destruct (JSON_parse generationsJson) as [[| | | | |results|]|]; simpl;
      try (split; [discriminate|intros (? & [=] & _)]).
    split.
    + intros Hload. exists results. split; [done|].
        destruct (mapM _ results) as [decoded|e] eqn:Hmap; simpl in Hload;
          [injection Hload as <-|discriminate Hload].
        apply mapM_Ok_Forall2 in Hmap.
        eapply Forall2_impl; [exact Hmap|].
        intros dict g Hg. by apply decodeGenerations_element.
    + intros (results' & [= <-] & Hall).
        assert (mapM (λ generationDict,
                  value ← getProperty generationDict "text";
                  match value with
                  | JString text => Ok (GenerationChunk text)
                  | _ => Throw (Error ("Invalid generation text: "
                                         +:+ ToString value))
                  end) results = Ok generations) as Hok.
        { apply mapM_Ok_Forall2. eapply Forall2_impl; [exact Hall|].
          intros dict g Hg. by apply decodeGenerations_element. }
        by rewrite Hok.
  - intros error. destruct (loadGenerationsFromJson_cases generationsJson)
      as [[generations ->]| ->]; [discriminate|]. by intros [= <-].
Qed.

Lemma loadGenerationsFromJson_dumped generationsJson generations :
  JSON_parse generationsJson = Some (JArray (dumped <$> generations)) →
  loadGenerationsFromJson generationsJson =
    Ok (GenerationChunk ∘ text <$> generations).
Proof.
  intros Hparse. unfold loadGenerationsFromJson, decodeGenerations.
  rewrite Hparse.
  rewrite (mapM_Ok _ (λ dict, match dict with
                              | JObject [(_, JString t)] => GenerationChunk t
                              | _ => GenerationChunk ""
                              end)).
  - simpl. f_equal. by rewrite <-list_fmap_compose.
  - intros dict Hdict. apply list_elem_of_fmap in Hdict as (g & -> & _). done.
Qed.

(** X9: writing a value and reading it back keeps the texts and nothing
    else. Provided [JSON.parse] reads the written text back as the array that
    was written, [loadGenerationsFromJson] of [dumpGenerationsToJson] of a
    list returns one generation per element with the same text in the same
    order, every other field ([generationInfo]) being lost. *)
Theorem dump_then_load_keeps_texts (generations : list Generation) :
  JSON_parse (dumpGenerationsToJson generations) =
    Some (JArray (dumped <$> generations)) →
  ∃ loaded,
    loadGenerationsFromJson (dumpGenerationsToJson generations) = Ok loaded ∧
    text <$> loaded = text <$> generations ∧
    Forall (λ generation, generationInfo generation = None) loaded.
Proof.
  intros Hparse. eexists. split; [by apply loadGenerationsFromJson_dumped|].
  split.
  - by rewrite <-list_fmap_compose.
  - apply Forall_fmap, Forall_forall. done.
Qed.

End DecodingFacts.

Lemma dump_then_load_keeps_texts_witness :
  let generations :=
    [ {| text := "Lee Harvey Oswald"; generationInfo := Some (JBool true) |};
      {| text := "a \ b"; generationInfo := None |} ] in
  @JSON_parse JSONFragment.object
    (@dumpGenerationsToJson JSONFragment.object generations) =
    Some (JArray (dumped <$> generations)) ∧
  ∃ loaded,
    @loadGenerationsFromJson JSONFragment.object
      (@dumpGenerationsToJson JSONFragment.object generations) = Ok loaded ∧
    text <$> loaded = text <$> generations ∧
    Forall (λ generation, generationInfo generation = None) loaded.
Proof.
  cbv zeta.
  assert (@JSON_parse JSONFragment.object
            (@dumpGenerationsToJson JSONFragment.object
               [ {| text := "Lee Harvey Oswald"; generationInfo := Some (JBool true) |};
                 {| text := "a \ b"; generationInfo := None |} ]) =
          Some (JArray (dumped <$>
               [ {| text := "Lee Harvey Oswald"; generationInfo := Some (JBool true) |};
                 {| text := "a \ b"; generationInfo := None |} ])))
    as Hparse by (vm_compute; reflexivity).
  split; [exact Hparse|].
  exact (@dump_then_load_keeps_texts JSONFragment.object _ Hparse).
Defined.


(* ===================================================================== *)
(** ** More about the semantic cache *)
(* ===================================================================== *)

(** An embedding provider that answers two embeddings for every text. *)
Definition pairedEmbeddings : Embeddings :=
  {| embedDocuments := λ texts,
       texts ≫= λ text,
         [ [Number.of_Z (Z.of_nat (String.length text)); Number.of_Z 1];
           [Number.of_Z 1; Number.of_Z (Z.of_nat (String.length text))] ];
     embedQuery := λ text,
       [Number.of_Z (Z.of_nat (String.length text)); Number.of_Z 1] |}.

Lemma set_cacheDict_ext dict this this' :
  inherited this = inherited this' →
  scoreThreshold this = scoreThreshold this' →
  set_cacheDict dict this = set_cacheDict dict this'.
Proof. unfold set_cacheDict. by intros -> ->. Qed.

Lemma cache_eq this this' :
  inherited this = inherited this' →
  cacheDict this = cacheDict this' →
  scoreThreshold this = scoreThreshold this' →
  this = this'.
Proof. destruct this, this'. simpl. by intros -> -> ->. Qed.

Section CacheMoreFacts.
Context `{JSONObject} `{Embeddings}.

(** The records [update] adds: one when the provider answers one embedding
    for the prompt, none otherwise. *)
Definition addedRecords (prompt llmKey : string) (returnVal : list Generation)
  : list MemoryVector :=
  match embedDocuments [prompt] with
  | [embedding] => [cachedRecord prompt llmKey returnVal embedding]
  | _ => []
  end.

Lemma namespaceStore_insert llmKey name store this :
  namespaceStore llmKey (set_cacheDict (<[name := store]> (cacheDict this)) this) =
  if decide (name = indexName llmKey) then store else namespaceStore llmKey this.
Proof.
  unfold namespaceStore. simpl. destruct (decide _) as [->|Hne].
  - by rewrite lookup_insert_eq.
  - by rewrite lookup_insert_ne.
Qed.

Lemma namespaceStore_getLlmCache llmKey llmKey' this :
  namespaceStore llmKey' (getLlmCache llmKey this).1 = namespaceStore llmKey' this.
Proof.
  unfold namespaceStore at 1. rewrite getLlmCache_cacheDict.
  destruct (decide (indexName llmKey = indexName llmKey')) as [Heq|Hne].
  - rewrite Heq, lookup_insert_eq. simpl. unfold namespaceStore. by rewrite Heq.
  - by rewrite lookup_insert_ne.
Qed.

Lemma namespaceStore_clear llmKey llmKey' this :
  namespaceStore llmKey' (clear llmKey this) =
  if decide (indexName llmKey = indexName llmKey')
  then fromExistingIndex None else namespaceStore llmKey' this.
Proof.
  unfold namespaceStore. rewrite clear_cacheDict.
  destruct (decide _) as [->|Hne].
  - by rewrite lookup_delete_eq.
  - by rewrite lookup_delete_ne.
Qed.

Lemma clear_fields llmKey this :
  inherited (clear llmKey this) = inherited this ∧
  scoreThreshold (clear llmKey this) = scoreThreshold this.
Proof. unfold clear. by destruct (cacheDict this !! indexName llmKey). Qed.

Lemma clear_eq llmKey this :
  clear llmKey this =
  set_cacheDict (delete (indexName llmKey) (cacheDict this)) this.
Proof.
  destruct (clear_fields llmKey this) as [Hinherited Hthreshold].
  apply cache_eq; [done| |done]. apply clear_cacheDict.
Qed.

Lemma matched_ext prompt llmKey this this' :
  namespaceStore llmKey this = namespaceStore llmKey this' →
  scoreThreshold this = scoreThreshold this' →
  matched prompt llmKey this = matched prompt llmKey this'.
Proof.
  intros Hstore Hthreshold. unfold matched.
  by rewrite !getLlmCache_retriever, Hstore, Hthreshold.
Qed.

Lemma lookup_result_ext prompt llmKey this this' :
  namespaceStore llmKey this = namespaceStore llmKey this' →
  scoreThreshold this = scoreThreshold this' →
  (lookup prompt llmKey this).2 = (lookup prompt llmKey this').2.
Proof.
  intros Hstore Hthreshold.
  by rewrite !lookup_result, (matched_ext _ _ _ _ Hstore Hthreshold).
Qed.

Lemma update_unfold prompt llmKey returnVal this :
  update prompt llmKey returnVal this =
  (set_cacheDict
     (<[indexName llmKey :=
          {| memoryVectors :=
               memoryVectors (namespaceStore llmKey this) ++
                 addedRecords prompt llmKey returnVal;
             similarity := similarity (namespaceStore llmKey this) |}]>
        (cacheDict this)) this,
   if decide (length (embedDocuments [prompt]) ≤ 1) then Ok ()
   else Throw TypeError).
Proof.
  unfold update, addedRecords.
  pose proof (getLlmCache_cacheDict llmKey this) as Hdict.
  pose proof (getLlmCache_retriever llmKey this) as Hretriever.
  pose proof (getLlmCache_fields llmKey this) as [Hinherited Hthreshold].
  destruct (getLlmCache llmKey this) as [this' llmCache]. simpl in *.
  subst llmCache. unfold retriever_addDocuments, addDocuments. simpl.
  rewrite addVectors_zip.
  destruct (embedDocuments [prompt]) as [|e [|e' es]] eqn:Hembed; simpl.
  - f_equal. apply cache_eq; simpl; [done| |done].
    by rewrite Hdict, insert_insert_eq.
  - f_equal. apply cache_eq; simpl; [done| |done].
    by rewrite Hdict, insert_insert_eq.
  - destruct (decide (S (S (length es)) ≤ 1)) as [Hle|_]; [lia|].
    destruct (decide (S (S (length es)) ≤ 1)) as [Hle|_]; [lia|].
    f_equal. apply cache_eq; simpl; [done| |done].
    rewrite Hdict, app_nil_r. by destruct (namespaceStore llmKey this).
Qed.

Lemma update_fields prompt llmKey returnVal this :
  inherited (update prompt llmKey returnVal this).1 = inherited this ∧
  scoreThreshold (update prompt llmKey returnVal this).1 = scoreThreshold this.
Proof. by rewrite update_unfold. Qed.

Lemma lookup_fields prompt llmKey this :
  inherited (lookup prompt llmKey this).1 = inherited this ∧
  scoreThreshold (lookup prompt llmKey this).1 = scoreThreshold this.
Proof. rewrite lookup_state. apply getLlmCache_fields. Qed.

Lemma namespaceStore_update prompt llmKey returnVal llmKey' this :
  namespaceStore llmKey' (update prompt llmKey returnVal this).1 =
  if decide (indexName llmKey = indexName llmKey')
  then {| memoryVectors :=
            memoryVectors (namespaceStore llmKey this) ++
              addedRecords prompt llmKey returnVal;
          similarity := similarity (namespaceStore llmKey this) |}
  else namespaceStore llmKey' this.
Proof. rewrite update_unfold. simpl. apply namespaceStore_insert. Qed.

(** X10: a lookup in a namespace that is absent or holds no record returns
    [null], whatever the prompt; in particular every lookup in a new cache
    does. *)
Theorem lookup_without_records_is_null prompt llmKey this :
  from_option memoryVectors [] (cacheDict this !! indexName llmKey) = [] →
  (lookup prompt llmKey this).2 = Ok None ∧
  ∀ scoreThreshold similarity,
    (lookup prompt llmKey
       (MemorySemanticVectorStore_new scoreThreshold similarity)).2 = Ok None.
Proof.
  intros Hempty. split.
  - rewrite lookup_result, matched_empty; [done|].
    unfold namespaceStore. by destruct (cacheDict this !! indexName llmKey).
  - intros threshold sim. by rewrite lookup_result, matched_empty.
Qed.

(** X11: a lookup changes the records of no namespace, and so the result of
    no later lookup, under any key, same or other; repeating it leaves the
    state it left. All it can do to the state is enter an empty store for a
    namespace that was absent. *)
Theorem lookup_changes_no_later_lookup prompt llmKey this :
  (∀ llmKey',
     namespaceStore llmKey' (lookup prompt llmKey this).1 =
       namespaceStore llmKey' this) ∧
  (∀ prompt' llmKey',
     (lookup prompt' llmKey' (lookup prompt llmKey this).1).2 =
       (lookup prompt' llmKey' this).2) ∧
  (lookup prompt llmKey (lookup prompt llmKey this).1).1 =
    (lookup prompt llmKey this).1 ∧
  cacheDict (lookup prompt llmKey this).1 =
    match cacheDict this !! indexName llmKey with
    | Some _ => cacheDict this
    | None => <[indexName llmKey := MemoryVectorStore_new None]> (cacheDict this)
    end.
Proof.
  assert (∀ llmKey',
     namespaceStore llmKey' (lookup prompt llmKey this).1 =
       namespaceStore llmKey' this) as Hsame
    by (intros; rewrite lookup_state; apply namespaceStore_getLlmCache).
  split_and!.
  - exact Hsame.
  - intros prompt' llmKey'. apply lookup_result_ext; [apply Hsame|].
    apply lookup_fields.
  - rewrite !lookup_state. apply cache_eq.
    + apply getLlmCache_fields.
    + rewrite !getLlmCache_cacheDict, namespaceStore_getLlmCache.
      apply insert_insert_eq.
    + apply getLlmCache_fields.
  - rewrite lookup_state, getLlmCache_cacheDict. unfold namespaceStore.
    destruct (cacheDict this !! indexName llmKey) eqn:E; simpl; [|done].
    by apply insert_id.
Qed.

(** X12: an update under one key leaves every namespace with another index
    name as it was, entry and records, and with it the result of every
    lookup there; it never touches the threshold. This holds whether the
    update returns or throws. *)
Theorem update_changes_only_its_namespace prompt llmKey returnVal llmKey' this :
  indexName llmKey ≠ indexName llmKey' →
  cacheDict (update prompt llmKey returnVal this).1 !! indexName llmKey' =
    cacheDict this !! indexName llmKey' ∧
  (∀ prompt',
     (lookup prompt' llmKey' (update prompt llmKey returnVal this).1).2 =
       (lookup prompt' llmKey' this).2) ∧
  inherited (update prompt llmKey returnVal this).1 = inherited this ∧
  scoreThreshold (update prompt llmKey returnVal this).1 = scoreThreshold this.
Proof.
  intros Hne. destruct (update_fields prompt llmKey returnVal this)
    as [Hinherited Hthreshold].
  split_and!; [|intros prompt'|done|done].
  - rewrite update_unfold. simpl. by rewrite lookup_insert_ne.
  - apply lookup_result_ext; [|done]. rewrite namespaceStore_update.
    by destruct (decide _).
Qed.

(** X13: [clear] forgets what was done under the key before: clearing after
    an update or a lookup under the same key gives the state that clearing
    alone gives, and clearing twice is clearing once. *)
Theorem clear_forgets_update_and_lookup prompt llmKey returnVal this :
  clear llmKey (update prompt llmKey returnVal this).1 = clear llmKey this ∧
  clear llmKey (lookup prompt llmKey this).1 = clear llmKey this ∧
  clear llmKey (clear llmKey this) = clear llmKey this.
Proof.
  split_and!; rewrite !clear_eq.
  - destruct (update_fields prompt llmKey returnVal this) as [Hi Ht].
    rewrite (set_cacheDict_ext _ _ this Hi Ht). f_equal.
    rewrite update_unfold. simpl. apply delete_insert_eq.
  - destruct (lookup_fields prompt llmKey this) as [Hi Ht].
    rewrite (set_cacheDict_ext _ _ this Hi Ht). f_equal.
    rewrite lookup_state, getLlmCache_cacheDict. apply delete_insert_eq.
  - unfold set_cacheDict. simpl. f_equal. apply delete_delete_eq.
Qed.

(** X14: when the provider does not answer exactly one embedding for the
    prompt, [update] stores nothing: with no embedding it returns as if it
    had succeeded, with two or more it throws a [TypeError]. Either way the
    namespace exists afterwards with the records it had before. *)
Theorem update_with_miscounted_embeddings prompt llmKey returnVal this :
  length (embedDocuments [prompt]) ≠ 1 →
  (update prompt llmKey returnVal this).2 =
    (if decide (length (embedDocuments [prompt]) = 0) then Ok ()
     else Throw TypeError) ∧
  memoryVectors <$>
    cacheDict (update prompt llmKey returnVal this).1 !! indexName llmKey =
    Some (from_option memoryVectors [] (cacheDict this !! indexName llmKey)).
Proof.
  intros Hcount. rewrite update_unfold. simpl. split.
  - destruct (decide (_ ≤ 1)), (decide (_ = 0)); try done; lia.
  - rewrite lookup_insert_eq. simpl. f_equal. unfold addedRecords.
    destruct (embedDocuments [prompt]) as [|e [|e' es]]; [|done|];
      rewrite app_nil_r; unfold namespaceStore;
      by destruct (cacheDict this !! indexName llmKey).
Qed.

(** X15: every store of the cache's namespaces measures similarity by
    cosine, in every state reached from a new cache by any calls: the
    similarity function given to the cache's constructor is stored in the
    cache itself and handed to no namespace store. *)
Theorem namespaces_use_cosine_whatever_is_configured
    scoreThreshold similarity' calls name store :
  cacheDict (performAll calls
               (MemorySemanticVectorStore_new scoreThreshold similarity'))
    !! name = Some store →
  similarity store = cosine ∧
  similarity (inherited (performAll calls
               (MemorySemanticVectorStore_new scoreThreshold similarity'))) =
    default cosine similarity'.
Proof.
  intros Hstore. split.
  - exact (performAll_allCosine scoreThreshold similarity' calls name store Hstore).
  - clear Hstore. induction calls as [|call calls IH] using rev_ind; [done|].
    unfold performAll. rewrite foldl_snoc. fold (performAll calls).
    destruct call as [prompt llmKey|prompt llmKey returnVal|llmKey]; simpl.
    + by rewrite (proj1 (lookup_fields _ _ _)).
    + by rewrite (proj1 (update_fields _ _ _ _)).
    + by rewrite (proj1 (clear_fields _ _)).
Qed.

End CacheMoreFacts.

Lemma lookup_without_records_is_null_witness :
  from_option memoryVectors [] (cacheDict newCache !! indexName "llm:key") = [] ∧
  (@lookup JSONFragment.object lengthEmbeddings "Who killed John F. Kennedy?"
     "llm:key" newCache).2 = Ok None.
Proof.
  assert (from_option memoryVectors []
            (cacheDict newCache !! indexName "llm:key") = []) as Hempty
    by reflexivity.
  split; [exact Hempty|].
  exact (proj1 (@lookup_without_records_is_null JSONFragment.object
                  lengthEmbeddings "Who killed John F. Kennedy?" "llm:key"
                  newCache Hempty)).
Defined.

Lemma update_changes_only_its_namespace_witness :
  let after :=
    (@update JSONFragment.object lengthEmbeddings "prompt test 2" "llm:key"
       [textGeneration "generation test 2"] twoNamespaces).1 in
  indexName "llm:key" ≠ indexName "other:key" ∧
  cacheDict after !! indexName "other:key" =
    cacheDict twoNamespaces !! indexName "other:key" ∧
  (@lookup JSONFragment.object lengthEmbeddings "prompt test 1" "other:key"
     after).2 =
  (@lookup JSONFragment.object lengthEmbeddings "prompt test 1" "other:key"
     twoNamespaces).2.
Proof.
  cbv zeta.
  assert (indexName "llm:key" ≠ indexName "other:key") as Hnames
    by (vm_compute; discriminate).
  destruct (@update_changes_only_its_namespace JSONFragment.object
              lengthEmbeddings "prompt test 2" "llm:key"
              [textGeneration "generation test 2"] "other:key" twoNamespaces
              Hnames) as (Hentry & Hlookup & _).
  split; [exact Hnames|]. split; [exact Hentry|]. exact (Hlookup "prompt test 1").
Defined.

Lemma update_with_miscounted_embeddings_witness :
  length (@embedDocuments pairedEmbeddings ["prompt"]) ≠ 1 ∧
  (@update JSONFragment.object pairedEmbeddings "prompt" "llm:key"
     [textGeneration "value"] newCache).2 =
    (if decide (length (@embedDocuments pairedEmbeddings ["prompt"]) = 0)
     then Ok () else Throw TypeError) ∧
  memoryVectors <$>
    cacheDict (@update JSONFragment.object pairedEmbeddings "prompt" "llm:key"
                 [textGeneration "value"] newCache).1 !! indexName "llm:key" =
    Some (from_option memoryVectors [] (cacheDict newCache !! indexName "llm:key")).
Proof.
  assert (length (@embedDocuments pairedEmbeddings ["prompt"]) ≠ 1) as Hcount
    by (simpl; lia).
  split; [exact Hcount|].
  exact (@update_with_miscounted_embeddings JSONFragment.object pairedEmbeddings
           "prompt" "llm:key" [textGeneration "value"] newCache Hcount).
Defined.

Lemma namespaces_use_cosine_whatever_is_configured_witness :
  let cache :=
    @performAll JSONFragment.object lengthEmbeddings
      [CallUpdate "prompt" "llm:key" [textGeneration "value"]]
      (MemorySemanticVectorStore_new None (Some dotProduct)) in
  ∃ store,
    cacheDict cache !! indexName "llm:key" = Some store ∧
    similarity store = cosine ∧
    similarity (inherited cache) = dotProduct.
Proof.
  cbv zeta.
  destruct (proj2 (@performAll_is_Some JSONFragment.object lengthEmbeddings
                     None (Some dotProduct)
                     [CallUpdate "prompt" "llm:key" [textGeneration "value"]]
                     (indexName "llm:key"))) as [store Hstore].
  { exists [], (CallUpdate "prompt" "llm:key" [textGeneration "value"]), [].
    split; [reflexivity|]. split; [reflexivity|]. split; [reflexivity|].
    intros c Hc. inversion Hc. }
  exists store. split; [exact Hstore|].
  exact (@namespaces_use_cosine_whatever_is_configured JSONFragment.object
           lengthEmbeddings None (Some dotProduct) _ _ _ Hstore).
Defined.


(* ===================================================================== *)
(** ** The states a cache can reach *)
(* ===================================================================== *)

(** What [JSON.parse] must do with the value an update stored for it to be
    read back: parse the written text into the array that was written. *)
Definition readsBack `{JSONObject} (call : Call) : Prop :=
  match call with
  | CallUpdate _ _ returnVal =>
      JSON_parse (dumpGenerationsToJson returnVal) =
        Some (JArray (dumped <$> returnVal))
  | _ => True
  end.

Section ReachableRecords.
Context `{JSONObject} `{Embeddings}.

(** The record was made by an update among [calls] for the namespace
    [name], from the one embedding the provider answered for its prompt. *)
Definition storedBy (calls : list Call) (name : string) (v : MemoryVector) : Prop :=
  ∃ prompt llmKey returnVal embedding,
    CallUpdate prompt llmKey returnVal ∈ calls ∧
    indexName llmKey = name ∧
    embedDocuments [prompt] = [embedding] ∧
    v = cachedRecord prompt llmKey returnVal embedding.

Definition recordsStoredBy (calls : list Call) (this : MemorySemanticVectorStore)
  : Prop :=
  ∀ name store v,
    cacheDict this !! name = Some store → v ∈ memoryVectors store →
    storedBy calls name v.

Lemma storedBy_app calls calls' name v :
  storedBy calls name v → storedBy (calls ++ calls') name v.
Proof.
  intros (prompt & llmKey & returnVal & e & Hin & Hrest).
  exists prompt, llmKey, returnVal, e. split; [|done].
  apply elem_of_app. by left.
Qed.

Lemma namespaceStore_elem_of llmKey this v :
  v ∈ memoryVectors (namespaceStore llmKey this) →
  ∃ store, cacheDict this !! indexName llmKey = Some store ∧
           v ∈ memoryVectors store.
Proof.
  unfold namespaceStore.
  destruct (cacheDict this !! indexName llmKey) as [store|]; simpl.
  - intros Hv. by exists store.
  - intros Hv. inversion Hv.
Qed.

Lemma addedRecords_elem_of prompt llmKey returnVal v :
  v ∈ addedRecords prompt llmKey returnVal →
  ∃ embedding, embedDocuments [prompt] = [embedding] ∧
               v = cachedRecord prompt llmKey returnVal embedding.
Proof.
  unfold addedRecords.
  destruct (embedDocuments [prompt]) as [|e [|e' es]]; intros Hv;
    [inversion Hv| |inversion Hv].
  apply list_elem_of_singleton in Hv as ->. by exists e.
Qed.

Lemma perform_recordsStoredBy calls this call :
  recordsStoredBy calls this →
  recordsStoredBy (calls ++ [call]) (perform this call).
Proof.
  intros Hinv name store v Hstore Hv.
  destruct call as [prompt llmKey|prompt llmKey returnVal|llmKey]; simpl in Hstore.
  - rewrite lookup_state, getLlmCache_cacheDict in Hstore.
    apply storedBy_app.
    destruct (decide (indexName llmKey = name)) as [<-|Hne].
    + rewrite lookup_insert_eq in Hstore. injection Hstore as <-.
      apply namespaceStore_elem_of in Hv as (store & Hstore & Hv). eauto.
    + rewrite lookup_insert_ne in Hstore by done. eauto.
  - rewrite update_unfold in Hstore. simpl in Hstore.
    destruct (decide (indexName llmKey = name)) as [<-|Hne].
    + rewrite lookup_insert_eq in Hstore. injection Hstore as <-.
      simpl in Hv. apply elem_of_app in Hv as [Hv|Hv].
      * apply storedBy_app.
        apply namespaceStore_elem_of in Hv as (store & Hstore & Hv). eauto.
      * apply addedRecords_elem_of in Hv as (e & He & ->).
        exists prompt, llmKey, returnVal, e. split; [|done].
        apply elem_of_app. right. apply list_elem_of_singleton. reflexivity.
    + rewrite lookup_insert_ne in Hstore by done. apply storedBy_app. eauto.
  - rewrite clear_cacheDict in Hstore.
    apply lookup_delete_Some in Hstore as [_ Hstore]. apply storedBy_app. eauto.
Qed.

Lemma performAll_recordsStoredBy scoreThreshold similarity calls :
  recordsStoredBy calls
    (performAll calls (MemorySemanticVectorStore_new scoreThreshold similarity)).
Proof.
  induction calls as [|call calls IH] using rev_ind.
  - intros name store v Hstore. simpl in Hstore.
    rewrite lookup_empty in Hstore. discriminate Hstore.
  - unfold performAll. rewrite foldl_snoc. by apply perform_recordsStoredBy.
Qed.

(** X16: in every state reached from a new cache, every record of every
    namespace store was put there by an update among the calls made: it is
    the record of that update's prompt, key and value with the one embedding
    the provider answered for the prompt, and it sits in the namespace of
    that update's key. No other call makes a record, and no record moves to
    another namespace. *)
Theorem reachable_records_come_from_updates
    scoreThreshold similarity calls name store v :
  cacheDict (performAll calls
               (MemorySemanticVectorStore_new scoreThreshold similarity))
    !! name = Some store →
  v ∈ memoryVectors store →
  ∃ prompt llmKey returnVal embedding,
    CallUpdate prompt llmKey returnVal ∈ calls ∧
    indexName llmKey = name ∧
    embedDocuments [prompt] = [embedding] ∧
    v = {| content := prompt;
           embedding := embedding;
           vectorMetadata :=
             {[ "llm_string" := JString llmKey;
                "prompt" := JString prompt;
                "return_val" := JString (dumpGenerationsToJson returnVal) ]} |}.
Proof.
  revert name store v. change (recordsStoredBy calls
    (performAll calls (MemorySemanticVectorStore_new scoreThreshold similarity))).
  induction calls as [|call calls IH] using rev_ind.
  - intros name store v Hstore. simpl in Hstore.
    rewrite lookup_empty in Hstore. discriminate Hstore.
  - unfold performAll. rewrite foldl_snoc. by apply perform_recordsStoredBy.
Qed.

Lemma matched_elem_of prompt llmKey this :
  ∃ results,
    matched prompt llmKey this = Ok results ∧
    ∀ document, document ∈ results →
      ∃ v, v ∈ memoryVectors (namespaceStore llmKey this) ∧
           document = documentOf v.
Proof.
  unfold matched. rewrite getLlmCache_retriever.
  unfold getRelevantDocuments, similaritySearchWithScore. simpl.
  rewrite similaritySearchVectorWithScore_Ok. simpl.
  eexists. split; [reflexivity|]. intros document Hdocument.
  apply list_elem_of_fmap in Hdocument as ([document' score] & -> & Hin).
  apply list_elem_of_In, List.filter_In in Hin as [Hin _].
  apply list_elem_of_In, list_elem_of_fmap in Hin as (s & Hs & Hin).
  apply searches_elem_of in Hin as (v & Hv & _).
  unfold resultOf in Hs. rewrite Hv in Hs. simpl in Hs.
  injection Hs as -> ->. exists v. split; [|reflexivity].
  apply list_elem_of_lookup_2 in Hv.
  by apply filteredMemoryVectors_elem_of in Hv as [Hv _].
Qed.

Lemma return_val_cachedRecord prompt llmKey returnVal embedding :
  return_val (documentOf (cachedRecord prompt llmKey returnVal embedding)) =
  dumpGenerationsToJson returnVal.
Proof. reflexivity. Qed.

(** X17: in a state reached from a new cache by calls whose updates stored
    values that [JSON.parse] reads back, no lookup throws: it returns either
    [null] or the texts, in order, of the non-empty value of one update among
    the calls whose key has the index name of the lookup's key. A hit thus
    never mixes two stored values, and never invents a text. *)
Theorem reachable_lookup_returns_a_stored_value
    scoreThreshold similarity calls prompt llmKey :
  Forall readsBack calls →
  let this :=
    performAll calls (MemorySemanticVectorStore_new scoreThreshold similarity) in
  (lookup prompt llmKey this).2 = Ok None ∨
  ∃ prompt' llmKey' returnVal,
    CallUpdate prompt' llmKey' returnVal ∈ calls ∧
    indexName llmKey' = indexName llmKey ∧
    returnVal ≠ [] ∧
    (lookup prompt llmKey this).2 =
      Ok (Some (GenerationChunk ∘ text <$> returnVal)).
Proof.
  intros Hreads this. rewrite lookup_result.
  destruct (matched_elem_of prompt llmKey this) as (results & Hmatched & Hfrom).
  pose proof (matched_at_most_one _ _ _ _ Hmatched) as Hlen.
  rewrite Hmatched. simpl.
  destruct results as [|document [|document' results]];
    [by left| |simpl in Hlen; lia].
  destruct (Hfrom document) as (v & Hv & ->); [left|].
  apply namespaceStore_elem_of in Hv as (store & Hstore & Hv).
  destruct (performAll_recordsStoredBy scoreThreshold similarity calls
              _ _ _ Hstore Hv)
    as (prompt' & llmKey' & returnVal & e & Hcall & Hname & _ & ->).
  rewrite Forall_forall in Hreads. specialize (Hreads _ Hcall). simpl in Hreads.
  cbn [concatGenerations]. rewrite return_val_cachedRecord.
  rewrite (loadGenerationsFromJson_dumped _ _ Hreads). simpl.
  destruct returnVal as [|generation returnVal]; [by left|].
  right. exists prompt', llmKey', (generation :: returnVal).
  split; [done|]. split; [done|]. split; [done|].
  destruct (decide _) as [_|Hn]; [done|]. simpl in Hn. lia.
Qed.

(** X18: a call never reorders, changes or removes the records of a
    namespace, except a [clear] of that namespace, which removes its entry.
    Any other call keeps the records where they are, and only an update
    under a key of that namespace appends to them, one record at most. *)
Theorem records_are_kept_until_cleared this call llmKey :
  (isClear call = true ∧ indexName (keyOf call) = indexName llmKey ∧
   cacheDict (perform this call) !! indexName llmKey = None) ∨
  ∃ added,
    memoryVectors (namespaceStore llmKey (perform this call)) =
      memoryVectors (namespaceStore llmKey this) ++ added ∧
    length added ≤ 1 ∧
    (added ≠ [] →
       isUpdate call = true ∧ indexName (keyOf call) = indexName llmKey).
Proof.
  destruct call as [prompt key|prompt key returnVal|key]; simpl.
  - right. exists []. rewrite lookup_state, namespaceStore_getLlmCache.
    rewrite app_nil_r. split; [done|]. split; [simpl; lia|done].
  - right. rewrite namespaceStore_update.
    destruct (decide (indexName key = indexName llmKey)) as [Heq|Hne].
    + exists (addedRecords prompt key returnVal). simpl.
      unfold namespaceStore. rewrite Heq. split; [done|]. split; [|done].
      unfold addedRecords.
      destruct (embedDocuments [prompt]) as [|e [|e' es]]; simpl; lia.
    + exists []. rewrite app_nil_r. split; [done|]. split; [simpl; lia|done].
  - destruct (decide (indexName key = indexName llmKey)) as [Heq|Hne].
    + left. split; [done|]. split; [done|].
      rewrite clear_cacheDict, Heq. apply lookup_delete_eq.
    + right. exists []. rewrite namespaceStore_clear, app_nil_r.
      destruct (decide _) as [Heq|_]; [done|].
      split; [done|]. split; [simpl; lia|done].
Qed.

End ReachableRecords.

Lemma reachable_records_come_from_updates_witness :
  let calls := [CallUpdate "prompt" "llm:key" [textGeneration "value"]] in
  let v := @cachedRecord JSONFragment.object "prompt" "llm:key"
             [textGeneration "value"] [Number.of_Z 6; Number.of_Z 1] in
  let store := {| memoryVectors := [v]; similarity := cosine |} in
  cacheDict (@performAll JSONFragment.object lengthEmbeddings calls newCache)
    !! indexName "llm:key" = Some store ∧
  v ∈ memoryVectors store ∧
  ∃ prompt llmKey returnVal embedding,
    CallUpdate prompt llmKey returnVal ∈ calls ∧
    indexName llmKey = indexName "llm:key" ∧
    @embedDocuments lengthEmbeddings [prompt] = [embedding] ∧
    v = {| content := prompt;
           embedding := embedding;
           vectorMetadata :=
             {[ "llm_string" := JString llmKey;
                "prompt" := JString prompt;
                "return_val" :=
                  JString (@dumpGenerationsToJson JSONFragment.object returnVal) ]} |}.
Proof.
  cbv zeta.
  set (v := @cachedRecord JSONFragment.object "prompt" "llm:key"
              [textGeneration "value"] [Number.of_Z 6; Number.of_Z 1]).
  assert (cacheDict (@performAll JSONFragment.object lengthEmbeddings
                       [CallUpdate "prompt" "llm:key" [textGeneration "value"]]
                       newCache) !! indexName "llm:key" =
          Some {| memoryVectors := [v]; similarity := cosine |}) as Hstore.
  { change (cacheDict (@update JSONFragment.object lengthEmbeddings "prompt"
                         "llm:key" [textGeneration "value"] newCache).1
              !! indexName "llm:key" = Some {| memoryVectors := [v];
                                               similarity := cosine |}).
    rewrite (@update_one JSONFragment.object lengthEmbeddings "prompt" "llm:key"
               [textGeneration "value"] newCache
               [Number.of_Z 6; Number.of_Z 1] eq_refl).
    simpl. apply lookup_insert_eq. }
  assert (v ∈ [v]) as Hv by apply list_elem_of_here.
  split; [exact Hstore|]. split; [exact Hv|].
  exact (@reachable_records_come_from_updates JSONFragment.object
           lengthEmbeddings None None _ _ _ _ Hstore Hv).
Defined.

Lemma reachable_lookup_returns_a_stored_value_witness :
  let calls :=
    [CallUpdate "Who killed John F. Kennedy?" "llm:key"
       [textGeneration "Lee Harvey Oswald"];
     CallLookup "Who killed John F. Kennedy?" "other:key";
     CallUpdate "prompt test 1" "other:key" [textGeneration "generation test 1"]] in
  let this := @performAll JSONFragment.object lengthEmbeddings calls newCache in
  Forall (@readsBack JSONFragment.object) calls ∧
  ((@lookup JSONFragment.object lengthEmbeddings "Who shot Kennedy?" "llm:key"
      this).2 = Ok None ∨
   ∃ prompt' llmKey' returnVal,
     CallUpdate prompt' llmKey' returnVal ∈ calls ∧
     indexName llmKey' = indexName "llm:key" ∧
     returnVal ≠ [] ∧
     (@lookup JSONFragment.object lengthEmbeddings "Who shot Kennedy?" "llm:key"
        this).2 = Ok (Some (GenerationChunk ∘ text <$> returnVal))).
Proof.
  cbv zeta.
  assert (Forall (@readsBack JSONFragment.object)
            [CallUpdate "Who killed John F. Kennedy?" "llm:key"
               [textGeneration "Lee Harvey Oswald"];
             CallLookup "Who killed John F. Kennedy?" "other:key";
             CallUpdate "prompt test 1" "other:key"
               [textGeneration "generation test 1"]]) as Hreads.
  { repeat (apply Forall_cons_2; [vm_compute; reflexivity || exact I|]).
    apply Forall_nil_2. }
  split; [exact Hreads|].
  exact (@reachable_lookup_returns_a_stored_value JSONFragment.object
           lengthEmbeddings None None _ "Who shot Kennedy?" "llm:key" Hreads).
Defined.


(* ===================================================================== *)
(** ** The names of the namespaces *)
(* ===================================================================== *)

Lemma length_string_of_list_ascii (l : list ascii) :
  String.length (String.string_of_list_ascii l) = length l.
Proof. induction l as [|c l IH]; simpl; [done|]. by rewrite IH. Qed.

Lemma length_littleEndian width x : length (MD5.littleEndian width x) = width.
Proof. unfold MD5.littleEndian. by rewrite length_fmap, length_seq. Qed.

Lemma length_digest message : length (MD5.digest message) = 16.
Proof.
  unfold MD5.digest. cbv zeta.
  destruct (foldl MD5.processChunk _ _) as [[[a0 b0] c0] d0].
  by rewrite !length_app, !length_littleEndian.
Qed.

Lemma hexDigit_elem_of n :
  MD5.hexDigit n ∈ String.list_ascii_of_string "0123456789abcdef".
Proof.
  unfold MD5.hexDigit.
  destruct (String.list_ascii_of_string "0123456789abcdef" !! Z.to_nat n)
    as [c|] eqn:E; simpl.
  - by eapply list_elem_of_lookup_2.
  - apply list_elem_of_here.
Qed.

(** X19: the index name of every key is [cache:] followed by 32 lower-case
    hexadecimal digits, 38 characters in all, whatever the key and however
    long it is. *)
Theorem indexName_is_cache_and_32_hex_digits llmKey :
  ∃ digits,
    indexName llmKey = "cache:" +:+ String.string_of_list_ascii digits ∧
    length digits = 32 ∧
    Forall (λ c, c ∈ String.list_ascii_of_string "0123456789abcdef") digits ∧
    String.length (indexName llmKey) = 38.
Proof.
  unfold indexName, hash, MD5.md5_hex, MD5.hex.
  set (bytes := MD5.digest (MD5.bytesOf llmKey)).
  assert (length bytes = 16) as Hbytes by apply length_digest.
  clearbody bytes.
  set (digits := bytes ≫= λ b, [MD5.hexDigit (b `div` 16)%Z;
                                MD5.hexDigit (b `mod` 16)%Z]).
  assert (length digits = 2 * length bytes) as Hlen.
  { unfold digits. clear Hbytes. induction bytes as [|b bytes IH]; [done|].
    rewrite bind_cons, length_app, IH. simpl. lia. }
  exists digits. split; [done|]. split; [lia|]. split.
  - unfold digits. clear. induction bytes as [|b bytes IH]; [constructor|].
    rewrite bind_cons. apply Forall_app. split; [|exact IH].
    repeat (constructor; [apply hexDigit_elem_of|]). constructor.
  - clearbody digits. simpl.
    change ("" +:+ String.string_of_list_ascii digits)
      with (String.string_of_list_ascii digits).
    rewrite length_string_of_list_ascii. lia.
Qed.
